(** * Transcript timestamp correlation and entity grouping

    Shallow embedding of the transcript → timestamp mapping pipeline of the
    backend (Segment Index, Offset Locator, Time Interpolator, Extraction
    Mapper, Profile Aggregator).  Character offsets are naturals (indices
    into the concatenated transcript) or integers where the interface takes
    an [int]; times in seconds are rationals [Q], i.e. the arithmetic of the
    interpolation formula is taken exactly. *)

From Stdlib Require Import List Arith Lia ZArith String Bool.
From Stdlib Require Import QArith Qminmax Lqa.
Import ListNotations.
Open Scope nat_scope.

(** ** Data model *)

Module Segment.
(** [TranscriptSegment = {start_s: float, end_s: float, speaker: str, text: str}] *)
Record TranscriptSegment := mk {
  start_s : Q;
  end_s : Q;
  speaker : string;
  text : string
}.
End Segment.

Definition seg_len (s : Segment.TranscriptSegment) : nat :=
  String.length (Segment.text s).

Definition Attributes := list (string * option string).

Module Extraction.
Record Extraction := mk {
  category : string;
  start_char : Z;
  end_char : Z;
  text : string;
  attributes : Attributes
}.
End Extraction.

Module Entity.
(** [WorkflowEntity = {category, text, start_s, end_s, speaker: str|None, attributes}] *)
Record WorkflowEntity := mk {
  category : string;
  text : string;
  start_s : Q;
  end_s : Q;
  speaker : option string;
  attributes : Attributes
}.
End Entity.

(** ** Segment Index (step 1 of the mapping procedure: concatenate the
    segment texts and store each segment's cumulative start offset) *)

Record IndexEntry := mkEntry {
  segment_index : nat;
  cumulative_start_char : nat;
  cumulative_end_char : nat
}.

Definition SegmentIndex := list IndexEntry.

Fixpoint build_from (i start : nat) (segs : list Segment.TranscriptSegment)
  : SegmentIndex :=
  match segs with
  | [] => []
  | s :: rest =>
      mkEntry i start (start + seg_len s) :: build_from (S i) (start + seg_len s) rest
  end.

Definition build (segs : list Segment.TranscriptSegment) : SegmentIndex :=
  build_from 0 0 segs.

(** Cumulative end of the last segment, or 0 if there are no segments. *)
Definition total_length (idx : SegmentIndex) : nat :=
  cumulative_end_char (last idx (mkEntry 0 0 0)).

(** Length of the concatenation [full_text] of all segment texts. *)
Fixpoint sum_len (segs : list Segment.TranscriptSegment) : nat :=
  match segs with
  | [] => 0
  | s :: rest => seg_len s + sum_len rest
  end.

(** Sum of the text lengths of segments [0..k-1]. *)
Definition cum_start (segs : list Segment.TranscriptSegment) (k : nat) : nat :=
  sum_len (firstn k segs).

(** ** Offset Locator *)

(** The greatest entry of the index satisfying [f] (the index is ordered by
    cumulative start, so this is what the binary search over the cumulative
    start offsets returns). *)
Fixpoint find_last (f : IndexEntry -> bool) (idx : SegmentIndex) : option IndexEntry :=
  match idx with
  | [] => None
  | e :: rest =>
      match find_last f rest with
      | Some x => Some x
      | None => if f e then Some e else None
      end
  end.

Record RangeError := mkRangeError {
  bad_value : Z;
  valid_lo : Z;
  valid_hi : Z
}.

Inductive Located :=
  | At (segment_index local_offset : nat)
  | NoSegment.

(** Modelled from the spec: the Offset Locator [locate] of §4.2 (its
    implementation, services/langextract.py, is not in the repository).
    Range check; the greatest segment whose cumulative start is [<= global_pos];
    a position equal to [total_length] belongs to the last non-empty segment,
    clamped to its text length; an all-empty sequence resolves into a
    zero-length segment; an empty index has no segment to return. *)
Definition locate (idx : SegmentIndex) (global_pos : Z) : RangeError + Located :=
  let total := total_length idx in
  if (global_pos <? 0)%Z || (Z.of_nat total <? global_pos)%Z then
    inl (mkRangeError global_pos 0 (Z.of_nat total))
  else
    let p := Z.to_nat global_pos in
    let greatest :=
      match find_last (fun e => cumulative_start_char e <=? p) idx with
      | Some e => At (segment_index e) (p - cumulative_start_char e)
      | None => NoSegment
      end in
    if p =? total then
      match find_last (fun e => cumulative_start_char e <? cumulative_end_char e) idx with
      | Some e =>
          inr (At (segment_index e)
                  (Nat.min (p - cumulative_start_char e)
                           (cumulative_end_char e - cumulative_start_char e)))
      | None => inr greatest
      end
    else inr greatest.

(** Modelled from the spec: resolution of an extraction's [end_char] in the
    Extraction Mapper (§4.4), which applies the boundary tie-break so that an
    [end_char] equal to a segment's cumulative end belongs to that segment,
    not the next: the greatest segment whose cumulative start is strictly
    below the position.  A position [<= 0] is resolved as by [locate]. *)
Definition locate_end (idx : SegmentIndex) (global_pos : Z) : RangeError + Located :=
  let total := total_length idx in
  if (global_pos <=? 0)%Z then locate idx global_pos
  else if (Z.of_nat total <? global_pos)%Z then
    inl (mkRangeError global_pos 0 (Z.of_nat total))
  else
    let p := Z.to_nat global_pos in
    match find_last (fun e => cumulative_start_char e <? p) idx with
    | Some e => inr (At (segment_index e) (p - cumulative_start_char e))
    | None => inr NoSegment
    end.

(** ** Time Interpolator *)

(** Modelled from the spec (§4.3), the formula of step 3 of the mapping
    procedure with the clamp of the spec:
    [t = start_s + (local_offset / max(1, len(text))) * (end_s - start_s)],
    clamped as [max(start_s, min(t, end_s))]. *)
Definition interpolate (seg : Segment.TranscriptSegment) (local_offset : Z) : Q :=
  let t := (Segment.start_s seg
           + (inject_Z local_offset / inject_Z (Z.max 1 (Z.of_nat (seg_len seg))))
             * (Segment.end_s seg - Segment.start_s seg))%Q in
  Qmax (Segment.start_s seg) (Qmin t (Segment.end_s seg)).

(** ** Extraction Mapper *)

Inductive DataError :=
  | UnsortedSegments
  | NegativeDuration.

Fixpoint sorted_by_start (segs : list Segment.TranscriptSegment) : bool :=
  match segs with
  | a :: ((b :: _) as rest) =>
      Qle_bool (Segment.start_s a) (Segment.start_s b) && sorted_by_start rest
  | _ => true
  end.

(** Modelled from the spec: the DataError check of §4.4 / §7. *)
Definition validate_segments (segs : list Segment.TranscriptSegment) : option DataError :=
  if negb (sorted_by_start segs) then Some UnsortedSegments
  else if negb (forallb (fun s => Qle_bool (Segment.start_s s) (Segment.end_s s)) segs)
  then Some NegativeDuration
  else None.

(** Time and speaker of a located position; an unlocated position (only an
    empty transcript has one) has no speaker, and time 0. *)
Definition resolve (segs : list Segment.TranscriptSegment) (l : Located)
  : option string * Q :=
  match l with
  | At k off =>
      match nth_error segs k with
      | Some s => (Some (Segment.speaker s), interpolate s (Z.of_nat off))
      | None => (None, 0%Q)
      end
  | NoSegment => (None, 0%Q)
  end.

(** Modelled from the spec: [map_one] of §4.4 ([to_workflow_entities] is
    not in the repository).  The speaker is that of the start position's
    segment; the end segment's speaker is discarded. *)
Definition map_one (idx : SegmentIndex) (segs : list Segment.TranscriptSegment)
    (ex : Extraction.Extraction) : RangeError + Entity.WorkflowEntity :=
  match locate idx (Extraction.start_char ex) with
  | inl err => inl err
  | inr ls =>
      match locate_end idx (Extraction.end_char ex) with
      | inl err => inl err
      | inr le =>
          let '(spk, t0) := resolve segs ls in
          let '(_, t1) := resolve segs le in
          inr (Entity.mk (Extraction.category ex) (Extraction.text ex) t0 t1 spk
                         (Extraction.attributes ex))
      end
  end.

Definition SkipRecord := (Extraction.Extraction * RangeError)%type.

Fixpoint map_batch (idx : SegmentIndex) (segs : list Segment.TranscriptSegment)
    (exs : list Extraction.Extraction)
  : list Entity.WorkflowEntity * list SkipRecord :=
  match exs with
  | [] => ([], [])
  | ex :: rest =>
      let '(ents, skips) := map_batch idx segs rest in
      match map_one idx segs ex with
      | inl err => (ents, (ex, err) :: skips)
      | inr ent => (ent :: ents, skips)
      end
  end.

(** Modelled from the spec: the batch call [map_all] of §4.4 / §7: the
    segment sequence is validated once, before any extraction; a RangeError
    skips just that extraction and is recorded. *)
Definition map_all (segs : list Segment.TranscriptSegment)
    (exs : list Extraction.Extraction)
  : DataError + (list Entity.WorkflowEntity * list SkipRecord) :=
  match validate_segments segs with
  | Some err => inl err
  | None => inr (map_batch (build segs) segs exs)
  end.

(** ** The lookup rule of the implementation blueprint (part_002, §D step 3):
    "Find segment [k] where
    [cum_start_char[k] <= start_pos < cum_start_char[k] + len(text_k)]". *)
Definition blueprint_owns (segs : list Segment.TranscriptSegment) (k pos : nat) : bool :=
  match nth_error (build segs) k, nth_error segs k with
  | Some e, Some s =>
      (cumulative_start_char e <=? pos) && (pos <? cumulative_start_char e + seg_len s)
  | _, _ => false
  end.

Definition blueprint_find (segs : list Segment.TranscriptSegment) (pos : nat) : option nat :=
  find (fun k => blueprint_owns segs k pos) (seq 0 (List.length segs)).

(** §D step 1: "Concatenate [segments[i].text] into [full_text]"; the
    cumulative offsets stored alongside are those of [build]. *)
Fixpoint full_text (segs : list Segment.TranscriptSegment) : string :=
  match segs with
  | [] => EmptyString
  | s :: rest => (Segment.text s ++ full_text rest)%string
  end.

(** §D step 3, the time of a position inside segment [seg]:
    [start_s[k] + (char_in_seg / max(1, len(text_k))) * (end_s[k] - start_s[k])],
    with no clamp. *)
Definition blueprint_time (seg : Segment.TranscriptSegment) (char_in_seg : nat) : Q :=
  (Segment.start_s seg
   + (inject_Z (Z.of_nat char_in_seg) / inject_Z (Z.max 1 (Z.of_nat (seg_len seg))))
     * (Segment.end_s seg - Segment.start_s seg))%Q.

(** §D step 3 for one position: find the segment [k], compute
    [char_in_seg = pos - cum_start_char[k]] and its time.  No segment found
    gives [None] (the blueprint does not say what happens then). *)
Definition blueprint_position (segs : list Segment.TranscriptSegment) (pos : nat)
  : option (nat * Q) :=
  match blueprint_find segs pos with
  | None => None
  | Some k =>
      match nth_error (build segs) k, nth_error segs k with
      | Some e, Some s => Some (k, blueprint_time s (pos - cumulative_start_char e))
      | _, _ => None
      end
  end.

(** §D step 3 for one extraction: [t_start] from [start_pos], then "repeat
    for [end_pos] to get [t_end]"; the segment found for each position is
    returned with its time. *)
Definition blueprint_map (segs : list Segment.TranscriptSegment) (start_pos end_pos : nat)
  : option ((nat * Q) * (nat * Q)) :=
  match blueprint_position segs start_pos, blueprint_position segs end_pos with
  | Some a, Some b => Some (a, b)
  | _, _ => None
  end.

(** ** Profile Aggregator ([group_into_profile]) *)

Inductive Bucket :=
  | PlanningGoals | ContextManagement | Guardrails | IterationStyle
  | Tools | Orchestration | Deployment | Quotes | Unclassified.

Definition bucket_eqb (a b : Bucket) : bool :=
  match a, b with
  | PlanningGoals, PlanningGoals | ContextManagement, ContextManagement
  | Guardrails, Guardrails | IterationStyle, IterationStyle | Tools, Tools
  | Orchestration, Orchestration | Deployment, Deployment | Quotes, Quotes
  | Unclassified, Unclassified => true
  | _, _ => false
  end.

(** The closed set of extraction categories (§6). *)
Definition fixed_categories : list string :=
  ["planning_goal"; "acceptance_criterion"; "context_strategy"; "guardrail";
   "iteration_pattern"; "tool_usage"; "orchestration"; "deployment_step"; "quote"]%string.

(** Modelled from the spec: the category → bucket routing of §3 / §4.5
    ([group_into_profile] is not in the repository).  The profile has no
    bucket for [acceptance_criterion], which therefore goes with every
    category without a bucket to [unclassified]. *)
Definition bucket_of_category (c : string) : Bucket :=
  if String.eqb c "planning_goal" then PlanningGoals
  else if String.eqb c "context_strategy" then ContextManagement
  else if String.eqb c "guardrail" then Guardrails
  else if String.eqb c "iteration_pattern" then IterationStyle
  else if String.eqb c "tool_usage" then Tools
  else if String.eqb c "orchestration" then Orchestration
  else if String.eqb c "deployment_step" then Deployment
  else if String.eqb c "quote" then Quotes
  else Unclassified.

Record WorkflowProfile := mkProfile {
  planning_goals : list Entity.WorkflowEntity;
  context_management : list Entity.WorkflowEntity;
  guardrails : list Entity.WorkflowEntity;
  iteration_style : list Entity.WorkflowEntity;
  tools : list Entity.WorkflowEntity;
  orchestration : list Entity.WorkflowEntity;
  deployment : list Entity.WorkflowEntity;
  quotes : list Entity.WorkflowEntity;
  unclassified : list Entity.WorkflowEntity
}.

Definition empty_profile : WorkflowProfile :=
  mkProfile [] [] [] [] [] [] [] [] [].

Definition profile_bucket (p : WorkflowProfile) (b : Bucket) : list Entity.WorkflowEntity :=
  match b with
  | PlanningGoals => planning_goals p
  | ContextManagement => context_management p
  | Guardrails => guardrails p
  | IterationStyle => iteration_style p
  | Tools => tools p
  | Orchestration => orchestration p
  | Deployment => deployment p
  | Quotes => quotes p
  | Unclassified => unclassified p
  end.

Definition all_buckets : list Bucket :=
  [PlanningGoals; ContextManagement; Guardrails; IterationStyle; Tools;
   Orchestration; Deployment; Quotes; Unclassified].

(** Total count across all buckets, unclassified included. *)
Definition profile_count (p : WorkflowProfile) : nat :=
  fold_right (fun b n => (List.length (profile_bucket p b) + n)%nat) 0%nat all_buckets.

(** Append at the end of one bucket (insertion order is input order). *)
Definition push (p : WorkflowProfile) (b : Bucket) (e : Entity.WorkflowEntity)
  : WorkflowProfile :=
  let 'mkProfile pg cm gr it tl orc dep qt uc := p in
  match b with
  | PlanningGoals => mkProfile (pg ++ [e]) cm gr it tl orc dep qt uc
  | ContextManagement => mkProfile pg (cm ++ [e]) gr it tl orc dep qt uc
  | Guardrails => mkProfile pg cm (gr ++ [e]) it tl orc dep qt uc
  | IterationStyle => mkProfile pg cm gr (it ++ [e]) tl orc dep qt uc
  | Tools => mkProfile pg cm gr it (tl ++ [e]) orc dep qt uc
  | Orchestration => mkProfile pg cm gr it tl (orc ++ [e]) dep qt uc
  | Deployment => mkProfile pg cm gr it tl orc (dep ++ [e]) qt uc
  | Quotes => mkProfile pg cm gr it tl orc dep (qt ++ [e]) uc
  | Unclassified => mkProfile pg cm gr it tl orc dep qt (uc ++ [e])
  end.

(** An entity routed to [unclassified] keeps its original category name as
    the attribute [original_category]. *)
Definition tag (e : Entity.WorkflowEntity) : Entity.WorkflowEntity :=
  match bucket_of_category (Entity.category e) with
  | Unclassified =>
      Entity.mk (Entity.category e) (Entity.text e) (Entity.start_s e) (Entity.end_s e)
                (Entity.speaker e)
                (("original_category"%string, Some (Entity.category e)) :: Entity.attributes e)
  | _ => e
  end.

Definition add_entity (p : WorkflowProfile) (e : Entity.WorkflowEntity) : WorkflowProfile :=
  push p (bucket_of_category (Entity.category e)) (tag e).

(** Modelled from the spec: [aggregate] of §4.5, a single-pass fold in the
    default permissive mode. *)
Definition aggregate (entities : list Entity.WorkflowEntity) : WorkflowProfile :=
  fold_left add_entity entities empty_profile.

(** Consecutive segments do not overlap in time: each ends no later than
    the next starts. *)
Fixpoint non_overlapping (segs : list Segment.TranscriptSegment) : bool :=
  match segs with
  | a :: ((b :: _) as rest) =>
      Qle_bool (Segment.end_s a) (Segment.start_s b) && non_overlapping rest
  | _ => true
  end.

(** An extraction with [start_char] or [end_char] outside [[0, total]]. *)
Definition out_of_range (total : nat) (ex : Extraction.Extraction) : bool :=
  negb ((0 <=? Extraction.start_char ex)%Z && (Extraction.start_char ex <=? Z.of_nat total)%Z
        && (0 <=? Extraction.end_char ex)%Z && (Extraction.end_char ex <=? Z.of_nat total)%Z).

(** The RangeError of a skipped extraction names the offset that fails the
    range check (the start offset when it does, the end offset otherwise),
    together with the valid range [[0, total]]. *)
Definition names_offending_offset (total : nat) (r : SkipRecord) : Prop :=
  let '(ex, err) := r in
  valid_lo err = 0%Z /\ valid_hi err = Z.of_nat total /\
  ~ (0 <= bad_value err <= Z.of_nat total)%Z /\
  (bad_value err = Extraction.start_char ex \/ bad_value err = Extraction.end_char ex) /\
  (~ (0 <= Extraction.start_char ex <= Z.of_nat total)%Z ->
     bad_value err = Extraction.start_char ex).

(** Two segments sorted by start time whose time spans overlap. *)
Definition overlapping_segments : list Segment.TranscriptSegment :=
  [Segment.mk 0 100 "A" "ab"; Segment.mk 1 2 "B" "cd"].
Definition ex_across : Extraction.Extraction := Extraction.mk "quote" 1 3 "bc" [].

(** A silent segment: empty text over a positive duration. *)
Definition silent_segment : Segment.TranscriptSegment := Segment.mk 0 5 "A" "".

(** ** Concrete transcript of the spec's scenarios *)

Definition seg_A : Segment.TranscriptSegment := Segment.mk 0 10 "A" "hello world".
Definition seg_B : Segment.TranscriptSegment := Segment.mk 10 20 "B" "goodbye".
Definition two_segments := [seg_A; seg_B].
Definition ex_world : Extraction.Extraction :=
  Extraction.mk "quote" 6 11 "world" [].

Definition silence_segments : list Segment.TranscriptSegment :=
  [Segment.mk 0 10 "A"%string "aaaaaaaaaa"; Segment.mk 10 10 "B"%string ""; Segment.mk 10 15 "C"%string "ccccc"].

Example build_two : build two_segments = [mkEntry 0 0 11; mkEntry 1 11 18].
Proof. reflexivity. Qed.
Example locate_two_11 : locate (build two_segments) 11 = inr (At 1 0).
Proof. reflexivity. Qed.
Example locate_two_18 : locate (build two_segments) 18 = inr (At 1 7).
Proof. reflexivity. Qed.
Example locate_end_two_11 : locate_end (build two_segments) 11 = inr (At 0 11).
Proof. reflexivity. Qed.

(** ** Lemmas on the greatest matching entry *)

Section FindLast.
Variable f : IndexEntry -> bool.

Lemma find_last_none (l : SegmentIndex) :
  find_last f l = None -> forall j y, nth_error l j = Some y -> f y = false.
Proof.
  induction l as [|a l IH]; simpl; intros H j y Hy.
  - destruct j; discriminate.
  - destruct (find_last f l) eqn:E; [discriminate|].
    destruct (f a) eqn:Fa; [discriminate|].
    destruct j as [|j]; simpl in Hy.
    + injection Hy as <-; exact Fa.
    + exact (IH eq_refl j y Hy).
Qed.

Lemma find_last_some (l : SegmentIndex) x :
  find_last f l = Some x ->
  exists k, nth_error l k = Some x /\ f x = true /\
    forall j y, k < j -> nth_error l j = Some y -> f y = false.
Proof.
  induction l as [|a l IH]; simpl; [discriminate|].
  destruct (find_last f l) eqn:E.
  - intros [= <-]. destruct (IH eq_refl) as (k & Hk & Hf & Hl).
    exists (S k). split; [exact Hk|]. split; [exact Hf|].
    intros [|j] y Hj Hy; [lia|]. exact (Hl j y ltac:(lia) Hy).
  - destruct (f a) eqn:Fa; [|discriminate]. intros [= <-].
    exists 0. split; [reflexivity|]. split; [exact Fa|].
    intros [|j] y Hj Hy; [lia|]. exact (find_last_none l E j y Hy).
Qed.

Lemma find_last_complete (l : SegmentIndex) k x :
  nth_error l k = Some x -> f x = true -> exists y, find_last f l = Some y.
Proof.
  intros Hx Hf. destruct (find_last f l) eqn:E; [eauto|].
  rewrite (find_last_none l E k x Hx) in Hf. discriminate.
Qed.
End FindLast.

(** ** Lemmas on the Segment Index *)

Lemma build_from_nth i st segs k :
  nth_error (build_from i st segs) k =
  option_map (fun s => mkEntry (i + k) (st + sum_len (firstn k segs))
                               (st + sum_len (firstn k segs) + seg_len s))
             (nth_error segs k).
Proof.
  revert i st k; induction segs as [|s segs IH]; intros i st [|k]; simpl; try reflexivity.
  - f_equal. f_equal; lia.
  - rewrite IH. destruct (nth_error segs k); simpl; [|reflexivity].
    f_equal. f_equal; lia.
Qed.

Lemma build_nth segs k :
  nth_error (build segs) k =
  option_map (fun s => mkEntry k (cum_start segs k) (cum_start segs k + seg_len s))
             (nth_error segs k).
Proof. unfold build, cum_start. rewrite build_from_nth. reflexivity. Qed.

Lemma build_from_length i st segs :
  List.length (build_from i st segs) = List.length segs.
Proof. revert i st; induction segs; intros; simpl; [reflexivity|]. rewrite IHsegs; reflexivity. Qed.

Lemma last_cons_ne {A} (a : A) l d : l <> [] -> last (a :: l) d = last l d.
Proof. destruct l; [congruence|reflexivity]. Qed.

Lemma build_from_last i st segs d :
  segs <> [] -> cumulative_end_char (last (build_from i st segs) d) = st + sum_len segs.
Proof.
  revert i st; induction segs as [|s segs IH]; intros i st Hne; [congruence|].
  destruct segs as [|t r].
  - simpl. lia.
  - cbn [build_from]. rewrite last_cons_ne by discriminate.
    change (mkEntry (S i) (st + seg_len s) (st + seg_len s + seg_len t)
              :: build_from (S (S i)) (st + seg_len s + seg_len t) r)
      with (build_from (S i) (st + seg_len s) (t :: r)).
    rewrite IH by discriminate. simpl. lia.
Qed.

Lemma total_build segs : total_length (build segs) = sum_len segs.
Proof.
  destruct segs as [|s r]; [reflexivity|].
  unfold total_length, build. rewrite build_from_last by discriminate. reflexivity.
Qed.

Lemma cum_start_succ segs k s :
  nth_error segs k = Some s -> cum_start segs (S k) = cum_start segs k + seg_len s.
Proof.
  unfold cum_start. revert k; induction segs as [|a l IH]; intros [|k] H; simpl in *;
    try discriminate.
  - injection H as ->. lia.
  - specialize (IH k H). simpl in IH. lia.
Qed.

Lemma cum_start_mono segs j k : j <= k -> cum_start segs j <= cum_start segs k.
Proof.
  unfold cum_start. revert j k; induction segs as [|a l IH]; intros [|j] [|k] H; simpl;
    try lia.
  specialize (IH j k ltac:(lia)). lia.
Qed.

Lemma cum_start_all segs k : List.length segs <= k -> cum_start segs k = sum_len segs.
Proof. intros H. unfold cum_start. rewrite firstn_all2 by exact H. reflexivity. Qed.

Lemma cum_start_zero segs : cum_start segs 0 = 0.
Proof. reflexivity. Qed.

Lemma cum_start_bound segs k s :
  nth_error segs k = Some s -> cum_start segs k + seg_len s <= sum_len segs.
Proof.
  intros H. rewrite <- (cum_start_succ _ _ _ H).
  assert (Hk : k < List.length segs) by (apply nth_error_Some; congruence).
  rewrite <- (cum_start_all segs (List.length segs)) by lia.
  apply cum_start_mono. lia.
Qed.

(** Segments after index [k] all empty: the end of [k] is the total length. *)
Lemma cum_start_tail_empty segs k :
  (forall j s', k < j -> nth_error segs j = Some s' -> seg_len s' = 0) ->
  cum_start segs (S k) = sum_len segs.
Proof.
  intros Hempty.
  assert (Hn : forall n, cum_start segs (S k + n) = cum_start segs (S k)).
  { induction n as [|n IHn]; [rewrite Nat.add_0_r; reflexivity|].
    replace (S k + S n) with (S (S k + n)) by lia.
    destruct (nth_error segs (S k + n)) as [s'|] eqn:Hs.
    - rewrite (cum_start_succ _ _ _ Hs), (Hempty (S k + n) s' ltac:(lia) Hs). lia.
    - apply nth_error_None in Hs.
      rewrite (cum_start_all segs (S (S k + n))) by lia.
      rewrite <- IHn. symmetry. apply cum_start_all. lia. }
  rewrite <- (Hn (List.length segs)). apply cum_start_all. lia.
Qed.

Lemma build_entry segs k e :
  nth_error (build segs) k = Some e ->
  segment_index e = k /\ cumulative_start_char e = cum_start segs k /\
  exists s, nth_error segs k = Some s /\
            cumulative_end_char e = cum_start segs k + seg_len s.
Proof.
  rewrite build_nth. destruct (nth_error segs k) as [s|]; simpl; [|discriminate].
  intros [= <-]. simpl. eauto.
Qed.

Lemma build_entry_of segs k s :
  nth_error segs k = Some s ->
  nth_error (build segs) k = Some (mkEntry k (cum_start segs k) (cum_start segs k + seg_len s)).
Proof. intros H. rewrite build_nth, H. reflexivity. Qed.

Lemma nth_error_first {A} (l : list A) : l <> [] -> exists a, nth_error l 0 = Some a.
Proof. destruct l as [|a l]; [congruence|]. exists a; reflexivity. Qed.

(** ** Lemmas on the Offset Locator *)

Lemma locate_in_range idx (p : Z) :
  (0 <= p <= Z.of_nat (total_length idx))%Z ->
  ((p <? 0)%Z || (Z.of_nat (total_length idx) <? p)%Z) = false.
Proof. intros H. apply orb_false_iff. split; apply Z.ltb_ge; lia. Qed.

(** The greatest segment whose cumulative start is [<= p] exists as soon as
    there is a segment. *)
Lemma greatest_start_le segs p :
  segs <> [] ->
  exists k s, nth_error segs k = Some s /\ cum_start segs k <= p /\
    find_last (fun e => cumulative_start_char e <=? p) (build segs)
    = Some (mkEntry k (cum_start segs k) (cum_start segs k + seg_len s)) /\
    forall j s', k < j -> nth_error segs j = Some s' -> p < cum_start segs j.
Proof.
  intros Hne. destruct (nth_error_first segs Hne) as [s0 Hs0].
  destruct (find_last_complete (fun e => cumulative_start_char e <=? p) (build segs) 0
              _ (build_entry_of segs 0 s0 Hs0)) as [y Hy].
  { cbv beta. cbn [cumulative_start_char]. apply Nat.leb_le. rewrite cum_start_zero. lia. }
  destruct (find_last_some _ _ _ Hy) as (k & Hk & Hf & Hlater).
  rewrite build_nth in Hk. destruct (nth_error segs k) as [s|] eqn:Hs; [|discriminate].
  injection Hk as <-. simpl in Hf. apply Nat.leb_le in Hf.
  exists k, s. split; [exact Hs|]. split; [exact Hf|]. split; [exact Hy|].
  intros j s' Hj Hs'. specialize (Hlater j _ Hj (build_entry_of segs j s' Hs')).
  simpl in Hlater. apply Nat.leb_gt in Hlater. exact Hlater.
Qed.

(** A position strictly inside the transcript resolves to the unique segment
    [k] with [cum_start k <= p < cum_start k + len(text_k)]. *)
Lemma locate_interior segs p :
  p < sum_len segs ->
  exists k s, nth_error segs k = Some s /\
    cum_start segs k <= p < cum_start segs k + seg_len s /\
    locate (build segs) (Z.of_nat p) = inr (At k (p - cum_start segs k)).
Proof.
  intros Hp.
  assert (Hne : segs <> []) by (intros ->; simpl in Hp; lia).
  destruct (greatest_start_le segs p Hne) as (k & s & Hs & Hle & Hfind & Hlater).
  exists k, s. split; [exact Hs|]. split; [split; [exact Hle|]|].
  - destruct (nth_error segs (S k)) as [s'|] eqn:Hs'.
    + specialize (Hlater (S k) s' ltac:(lia) Hs').
      rewrite (cum_start_succ _ _ _ Hs) in Hlater. exact Hlater.
    + apply nth_error_None in Hs'.
      rewrite <- (cum_start_succ _ _ _ Hs), cum_start_all by lia. exact Hp.
  - unfold locate. rewrite locate_in_range by (rewrite total_build; lia).
    rewrite total_build, Nat2Z.id.
    replace (p =? sum_len segs) with false by (symmetry; apply Nat.eqb_neq; lia).
    rewrite Hfind. reflexivity.
Qed.

(** An end position [0 < p <= total] resolves to the unique segment [k] with
    [cum_start k < p <= cum_start k + len(text_k)]. *)
Lemma locate_end_inner segs p :
  0 < p <= sum_len segs ->
  exists k s, nth_error segs k = Some s /\
    cum_start segs k < p <= cum_start segs k + seg_len s /\
    locate_end (build segs) (Z.of_nat p) = inr (At k (p - cum_start segs k)).
Proof.
  intros Hp.
  assert (Hne : segs <> []) by (intros ->; simpl in Hp; lia).
  destruct (nth_error_first segs Hne) as [s0 Hs0].
  destruct (find_last_complete (fun e => cumulative_start_char e <? p) (build segs) 0
              _ (build_entry_of segs 0 s0 Hs0)) as [y Hy].
  { cbv beta. cbn [cumulative_start_char]. apply Nat.ltb_lt. rewrite cum_start_zero. lia. }
  destruct (find_last_some _ _ _ Hy) as (k & Hk & Hf & Hlater).
  rewrite build_nth in Hk. destruct (nth_error segs k) as [s|] eqn:Hs; [|discriminate].
  injection Hk as Hk. subst y. simpl in Hf. apply Nat.ltb_lt in Hf.
  exists k, s. split; [exact Hs|]. split; [split; [exact Hf|]|].
  - destruct (nth_error segs (S k)) as [s'|] eqn:Hs'.
    + specialize (Hlater (S k) _ ltac:(lia) (build_entry_of segs (S k) s' Hs')).
      simpl in Hlater. apply Nat.ltb_ge in Hlater.
      rewrite (cum_start_succ _ _ _ Hs) in Hlater. exact Hlater.
    + apply nth_error_None in Hs'.
      rewrite <- (cum_start_succ _ _ _ Hs), cum_start_all by lia. lia.
  - unfold locate_end. rewrite total_build.
    replace (Z.of_nat p <=? 0)%Z with false by (symmetry; apply Z.leb_gt; lia).
    replace (Z.of_nat (sum_len segs) <? Z.of_nat p)%Z with false
      by (symmetry; apply Z.ltb_ge; lia).
    rewrite Nat2Z.id, Hy. reflexivity.
Qed.

(** The position [total_length] belongs to the last non-empty segment,
    at local offset its text length. *)
Lemma locate_at_total segs :
  (exists k s, nth_error segs k = Some s /\ 0 < seg_len s) ->
  exists k s, nth_error segs k = Some s /\ 0 < seg_len s /\
    cum_start segs k + seg_len s = sum_len segs /\
    (forall j s', k < j -> nth_error segs j = Some s' -> seg_len s' = 0) /\
    locate (build segs) (Z.of_nat (sum_len segs)) = inr (At k (seg_len s)).
Proof.
  intros (k0 & s0 & Hs0 & Hl0).
  destruct (find_last_complete (fun e => cumulative_start_char e <? cumulative_end_char e)
              (build segs) k0 _ (build_entry_of segs k0 s0 Hs0)) as [y Hy].
  { cbv beta. cbn [cumulative_start_char cumulative_end_char]. apply Nat.ltb_lt. lia. }
  destruct (find_last_some _ _ _ Hy) as (k & Hk & Hf & Hlater).
  rewrite build_nth in Hk. destruct (nth_error segs k) as [s|] eqn:Hs; [|discriminate].
  injection Hk as Hk. subst y. simpl in Hf. apply Nat.ltb_lt in Hf.
  assert (Hempty : forall j s', k < j -> nth_error segs j = Some s' -> seg_len s' = 0).
  { intros j s' Hj Hs'. specialize (Hlater j _ Hj (build_entry_of segs j s' Hs')).
    simpl in Hlater. apply Nat.ltb_ge in Hlater. lia. }
  assert (Htot : cum_start segs k + seg_len s = sum_len segs).
  { rewrite <- (cum_start_succ _ _ _ Hs). apply cum_start_tail_empty. exact Hempty. }
  exists k, s. split; [exact Hs|]. split; [lia|]. split; [exact Htot|].
  split; [exact Hempty|].
  unfold locate. rewrite locate_in_range by (rewrite total_build; lia).
  rewrite total_build, Nat2Z.id, Nat.eqb_refl, Hy. simpl.
  do 2 f_equal. lia.
Qed.

Lemma locate_ok idx (p : Z) :
  (0 <= p <= Z.of_nat (total_length idx))%Z -> exists l, locate idx p = inr l.
Proof.
  intros Hp. unfold locate. rewrite locate_in_range by exact Hp. cbv zeta.
  destruct (Z.to_nat p =? total_length idx);
    [destruct (find_last (fun e => cumulative_start_char e <? cumulative_end_char e) idx)|];
    eexists; reflexivity.
Qed.

Lemma locate_err idx (p : Z) :
  ~ (0 <= p <= Z.of_nat (total_length idx))%Z ->
  locate idx p = inl (mkRangeError p 0 (Z.of_nat (total_length idx))).
Proof.
  intros Hp. unfold locate.
  replace ((p <? 0)%Z || (Z.of_nat (total_length idx) <? p)%Z) with true; [reflexivity|].
  symmetry. apply orb_true_iff.
  destruct (Z_lt_le_dec p 0); [left; apply Z.ltb_lt; lia|right; apply Z.ltb_lt; lia].
Qed.

Lemma locate_end_ok idx (p : Z) :
  (0 <= p <= Z.of_nat (total_length idx))%Z -> exists l, locate_end idx p = inr l.
Proof.
  intros Hp. unfold locate_end.
  destruct (p <=? 0)%Z eqn:E0; [apply locate_ok; exact Hp|].
  replace (Z.of_nat (total_length idx) <? p)%Z with false by (symmetry; apply Z.ltb_ge; lia).
  destruct (find_last _ idx); eexists; reflexivity.
Qed.

Lemma locate_end_err idx (p : Z) :
  ~ (0 <= p <= Z.of_nat (total_length idx))%Z ->
  locate_end idx p = inl (mkRangeError p 0 (Z.of_nat (total_length idx))).
Proof.
  intros Hp. unfold locate_end.
  destruct (p <=? 0)%Z eqn:E0; [apply locate_err; exact Hp|].
  apply Z.leb_gt in E0.
  replace (Z.of_nat (total_length idx) <? p)%Z with true by (symmetry; apply Z.ltb_lt; lia).
  reflexivity.
Qed.

(** Two segments resolving a position [p] with [cum_start <= p < cum_end]
    are the same segment. *)
Lemma owner_unique segs j k sj sk p :
  nth_error segs j = Some sj -> nth_error segs k = Some sk ->
  cum_start segs j <= p < cum_start segs j + seg_len sj ->
  cum_start segs k <= p < cum_start segs k + seg_len sk -> j = k.
Proof.
  intros Hj Hk Pj Pk.
  destruct (Nat.lt_trichotomy j k) as [Hl|[He|Hl]]; [|exact He|].
  - pose proof (cum_start_mono segs (S j) k ltac:(lia)).
    rewrite (cum_start_succ _ _ _ Hj) in H. lia.
  - pose proof (cum_start_mono segs (S k) j ltac:(lia)).
    rewrite (cum_start_succ _ _ _ Hk) in H. lia.
Qed.

(** ** C9: construction of the Segment Index *)

(** C9. [build] is total and returns, for every (possibly empty) segment
    sequence, one triple per segment in order: segment [k] gets cumulative
    start the sum of the text lengths of segments [0..k-1] and cumulative end
    that start plus its own text length; the empty sequence gives the empty
    index. *)
Theorem build_index_spec (segs : list Segment.TranscriptSegment) :
  List.length (build segs) = List.length segs /\
  (forall k,
     nth_error (build segs) k =
     option_map (fun s => mkEntry k (sum_len (firstn k segs))
                                    (sum_len (firstn k segs) + seg_len s))
                (nth_error segs k)) /\
  build [] = [].
Proof.
  split; [apply build_from_length|]. split; [|reflexivity].
  intros k. apply build_nth.
Qed.

(** ** C1: index round trip *)

(** Claim C1 as stated, over every segment sequence. *)
Definition roundtrip_claim : Prop :=
  forall segs (p : Z), (0 <= p <= Z.of_nat (total_length (build segs)))%Z ->
    exists k off e, locate (build segs) p = inr (At k off) /\
      nth_error (build segs) k = Some e /\
      Z.of_nat (cumulative_start_char e + off) = p.

(** C1 (counterexample). With no segment, [total_length] is 0 and position 0
    is in range, but there is no segment for [locate] to return. *)
Lemma locate_roundtrip_no_segment : ~ roundtrip_claim.
Proof.
  intros H. destruct (H [] 0%Z ltac:(simpl; lia)) as (k & off & e & Hl & _).
  cbv in Hl. discriminate.
Qed.

(** C1 (amended). For every non-empty segment sequence and every position
    [p] in [[0, total_length]], [locate] returns a segment and a local offset,
    and the segment's cumulative start plus the local offset is [p]. *)
Theorem locate_roundtrip (segs : list Segment.TranscriptSegment) (p : Z)
  (Hne : segs <> [])
  (Hp : (0 <= p <= Z.of_nat (total_length (build segs)))%Z) :
  exists k off e, locate (build segs) p = inr (At k off) /\
    nth_error (build segs) k = Some e /\
    Z.of_nat (cumulative_start_char e + off) = p.
Proof.
  rewrite total_build in Hp.
  destruct (Z_of_nat_complete p ltac:(lia)) as [n ->].
  destruct (lt_dec n (sum_len segs)) as [Hlt|Hge].
  - destruct (locate_interior segs n Hlt) as (k & s & Hs & Hin & Hloc).
    exists k, (n - cum_start segs k), (mkEntry k (cum_start segs k) (cum_start segs k + seg_len s)).
    split; [exact Hloc|]. split; [apply build_entry_of; exact Hs|]. simpl. lia.
  - assert (Hn : n = sum_len segs) by lia. subst n.
    destruct (find_last (fun e => cumulative_start_char e <? cumulative_end_char e)
                (build segs)) as [y|] eqn:Hy.
    + destruct (find_last_some _ _ _ Hy) as (k0 & Hk0 & Hf0 & _).
      destruct (build_entry _ _ _ Hk0) as (_ & Hst & s0 & Hs0 & Hen).
      simpl in Hf0. apply Nat.ltb_lt in Hf0.
      destruct (locate_at_total segs ltac:(exists k0, s0; split; [exact Hs0|lia]))
        as (k & s & Hs & _ & Htot & _ & Hloc).
      exists k, (seg_len s), (mkEntry k (cum_start segs k) (cum_start segs k + seg_len s)).
      split; [exact Hloc|]. split; [apply build_entry_of; exact Hs|]. simpl. lia.
    + destruct (greatest_start_le segs (sum_len segs) Hne) as (k & s & Hs & Hle & Hfind & _).
      exists k, (sum_len segs - cum_start segs k),
        (mkEntry k (cum_start segs k) (cum_start segs k + seg_len s)).
      split.
      * unfold locate. rewrite locate_in_range by (rewrite total_build; lia).
        rewrite total_build, Nat2Z.id, Nat.eqb_refl, Hy, Hfind. reflexivity.
      * split; [apply build_entry_of; exact Hs|]. simpl. lia.
Qed.

Lemma locate_roundtrip_witness :
  [seg_A; seg_B] <> [] /\
  exists k off e, locate (build two_segments) 11%Z = inr (At k off) /\
    nth_error (build two_segments) k = Some e /\
    Z.of_nat (cumulative_start_char e + off) = 11%Z.
Proof.
  split; [discriminate|].
  apply (locate_roundtrip two_segments 11%Z); [discriminate|vm_compute; split; discriminate].
Defined.

(** ** C2: the end offset of an extraction belongs to the segment it closes *)

(** C2. An [end_char] equal to the cumulative end of a non-empty segment [k]
    resolves to segment [k] (the segment it closes, not the next) at local
    offset its text length, and the mapped entity's [end_s] is the
    interpolation there; in the two-segment scenario ("hello world" over
    [0,10], "goodbye" over [10,20]) the extraction [6..11] resolves its end
    to segment 0 at offset 11 and maps to [start_s = 60/11], [end_s = 10],
    speaker "A". *)
Theorem end_char_tie_break (segs : list Segment.TranscriptSegment) (k : nat) (e : IndexEntry)
  (He : nth_error (build segs) k = Some e)
  (Hne : cumulative_start_char e < cumulative_end_char e) :
  (locate_end (build segs) (Z.of_nat (cumulative_end_char e))
     = inr (At k (cumulative_end_char e - cumulative_start_char e)) /\
   forall ex : Extraction.Extraction,
     Extraction.end_char ex = Z.of_nat (cumulative_end_char e) ->
     (0 <= Extraction.start_char ex <= Z.of_nat (total_length (build segs)))%Z ->
     exists s ent, nth_error segs k = Some s /\
       map_one (build segs) segs ex = inr ent /\
       Entity.end_s ent = interpolate s (Z.of_nat (seg_len s))) /\
  (exists ent,
     locate_end (build two_segments) 11%Z = inr (At 0 11) /\
     map_one (build two_segments) two_segments ex_world = inr ent /\
     Entity.speaker ent = Some "A"%string /\
     (Entity.start_s ent == 60 # 11)%Q /\ (Entity.end_s ent == 10)%Q).
Proof.
  destruct (build_entry _ _ _ He) as (_ & Hst & s & Hs & Hen).
  assert (Hloc : locate_end (build segs) (Z.of_nat (cumulative_end_char e))
                 = inr (At k (cumulative_end_char e - cumulative_start_char e))).
  { pose proof (cum_start_bound _ _ _ Hs) as Hb.
    destruct (locate_end_inner segs (cumulative_end_char e) ltac:(lia))
      as (k' & s' & Hs' & Hin & Hl).
    assert (k' = k) as ->.
    { destruct (Nat.lt_trichotomy k' k) as [Hlt|[Heq|Hlt]]; [|exact Heq|].
      - pose proof (cum_start_mono segs (S k') k ltac:(lia)) as Hm.
        rewrite (cum_start_succ _ _ _ Hs') in Hm. lia.
      - pose proof (cum_start_mono segs (S k) k' ltac:(lia)) as Hm.
        rewrite (cum_start_succ _ _ _ Hs) in Hm. lia. }
    rewrite Hl. rewrite Hst. reflexivity. }
  split; [split; [exact Hloc|]|].
  - intros ex Hend Hstart. exists s.
    destruct (locate_ok (build segs) _ Hstart) as [ls Hls].
    unfold map_one. rewrite Hls, Hend, Hloc.
    destruct (resolve segs ls) as [spk t0].
    cbn [resolve]. rewrite Hs.
    replace (cumulative_end_char e - cumulative_start_char e) with (seg_len s) by lia.
    eexists. split; [reflexivity|]. split; reflexivity.
  - eexists. split; [reflexivity|]. split; [reflexivity|].
    split; [reflexivity|]. split; reflexivity.
Qed.

Lemma end_char_tie_break_witness :
  nth_error (build two_segments) 0 = Some (mkEntry 0 0 11) /\
  locate_end (build two_segments) 11%Z = inr (At 0 11).
Proof.
  split; [reflexivity|].
  exact (proj1 (proj1 (end_char_tie_break two_segments 0 (mkEntry 0 0 11)
                         eq_refl ltac:(simpl; lia)))).
Defined.

(** ** C8: boundary tie-break of the Offset Locator *)

(** C8. A position [p] equal to the cumulative start of segment [k]
    (a cumulative boundary) with [p < total_length] resolves to segment [k],
    the segment starting there, at offset 0 when [k] has non-empty text;
    when [k] has empty text it resolves to the next non-empty segment [k'],
    which also starts at [p] (all segments between are empty).  The position
    [total_length] resolves to the last non-empty segment, at offset its
    text length. *)
Theorem locate_boundary_tie_break (segs : list Segment.TranscriptSegment) (k : nat)
  (e : IndexEntry) (He : nth_error (build segs) k = Some e) :
  (cumulative_start_char e < total_length (build segs) ->
   cumulative_start_char e < cumulative_end_char e ->
   locate (build segs) (Z.of_nat (cumulative_start_char e)) = inr (At k 0)) /\
  (cumulative_start_char e < total_length (build segs) ->
   cumulative_start_char e = cumulative_end_char e ->
   exists k' e', k < k' /\ nth_error (build segs) k' = Some e' /\
     cumulative_start_char e' = cumulative_start_char e /\
     cumulative_start_char e' < cumulative_end_char e' /\
     (forall j e'', k <= j < k' -> nth_error (build segs) j = Some e'' ->
        cumulative_start_char e'' = cumulative_end_char e'') /\
     locate (build segs) (Z.of_nat (cumulative_start_char e)) = inr (At k' 0)) /\
  ((exists j e', nth_error (build segs) j = Some e' /\
                 cumulative_start_char e' < cumulative_end_char e') ->
   exists j e', nth_error (build segs) j = Some e' /\
     cumulative_start_char e' < cumulative_end_char e' /\
     cumulative_end_char e' = total_length (build segs) /\
     (forall i e'', j < i -> nth_error (build segs) i = Some e'' ->
        cumulative_start_char e'' = cumulative_end_char e'') /\
     locate (build segs) (Z.of_nat (total_length (build segs)))
       = inr (At j (cumulative_end_char e' - cumulative_start_char e'))).
Proof.
  destruct (build_entry _ _ _ He) as (_ & Hst & s & Hs & Hen).
  rewrite total_build. rewrite Hst, Hen.
  split; [|split].
  - intros Hlt Hpos.
    destruct (locate_interior segs (cum_start segs k) Hlt) as (k' & s' & Hs' & Hin & Hl).
    assert (k' = k) as ->.
    { apply (owner_unique segs k' k s' s (cum_start segs k)); [exact Hs'|exact Hs|exact Hin|lia]. }
    rewrite Hl. rewrite Nat.sub_diag. reflexivity.
  - intros Hlt Hz.
    destruct (locate_interior segs (cum_start segs k) Hlt) as (k' & s' & Hs' & Hin & Hl).
    assert (Hk : k < k').
    { destruct (Nat.lt_trichotomy k' k) as [H|[H|H]]; [|subst k'; rewrite Hs in Hs';
        injection Hs' as ->; lia|exact H].
      pose proof (cum_start_mono segs (S k') k ltac:(lia)) as Hm.
      rewrite (cum_start_succ _ _ _ Hs') in Hm. lia. }
    assert (Hk' : cum_start segs k' = cum_start segs k).
    { pose proof (cum_start_mono segs (S k) k' ltac:(lia)) as Hm.
      rewrite (cum_start_succ _ _ _ Hs) in Hm. lia. }
    exists k', (mkEntry k' (cum_start segs k') (cum_start segs k' + seg_len s')).
    split; [exact Hk|]. split; [apply build_entry_of; exact Hs'|]. simpl.
    split; [exact Hk'|]. split; [lia|]. split.
    + intros j e'' Hj He''.
      destruct (build_entry _ _ _ He'') as (_ & Hst'' & s'' & Hs'' & Hen'').
      rewrite Hst'', Hen''.
      pose proof (cum_start_mono segs k j ltac:(lia)) as H1.
      pose proof (cum_start_mono segs (S j) k' ltac:(lia)) as H2.
      rewrite (cum_start_succ _ _ _ Hs'') in H2. lia.
    + rewrite Hl, Hk', Nat.sub_diag. reflexivity.
  - intros (j & e' & Hj & Hne').
    destruct (build_entry _ _ _ Hj) as (_ & Hst' & s' & Hs' & Hen').
    destruct (locate_at_total segs ltac:(exists j, s'; split; [exact Hs'|lia]))
      as (j' & s'' & Hs'' & Hpos & Htot & Hempty & Hl).
    exists j', (mkEntry j' (cum_start segs j') (cum_start segs j' + seg_len s'')).
    split; [apply build_entry_of; exact Hs''|]. simpl.
    split; [lia|]. split; [exact Htot|]. split.
    + intros i e'' Hi He''.
      destruct (build_entry _ _ _ He'') as (_ & Hst'' & s3 & Hs3 & Hen'').
      rewrite Hst'', Hen'', (Hempty i s3 Hi Hs3). lia.
    + rewrite Hl. do 2 f_equal. lia.
Qed.

Lemma locate_boundary_tie_break_witness :
  nth_error (build silence_segments) 1 = Some (mkEntry 1 10 10) /\
  exists k' e', 1 < k' /\ nth_error (build silence_segments) k' = Some e' /\
    locate (build silence_segments) 10%Z = inr (At k' 0).
Proof.
  split; [reflexivity|].
  destruct (proj1 (proj2 (locate_boundary_tie_break silence_segments 1 (mkEntry 1 10 10)
                            eq_refl)) ltac:(vm_compute; lia) eq_refl)
    as (k' & e' & Hk & He' & _ & _ & _ & Hl).
  exists k', e'. split; [exact Hk|]. split; [exact He'|]. exact Hl.
Defined.

(** ** C10: the blueprint's lookup rule at the end of the transcript *)

(** C10. Under the blueprint's rule
    [cum_start_char[k] <= pos < cum_start_char[k] + len(text_k)], the
    position [total_length] (a valid [end_char]) is owned by no segment. *)
Theorem blueprint_no_owner_at_end (segs : list Segment.TranscriptSegment) :
  (forall k, blueprint_owns segs k (total_length (build segs)) = false) /\
  blueprint_find segs (total_length (build segs)) = None.
Proof.
  assert (Hown : forall k, blueprint_owns segs k (total_length (build segs)) = false).
  { intros k. unfold blueprint_owns. rewrite total_build, build_nth.
    destruct (nth_error segs k) as [s|] eqn:Hs; [|reflexivity]. simpl.
    pose proof (cum_start_bound _ _ _ Hs).
    apply andb_false_iff. right. apply Nat.ltb_ge. lia. }
  split; [exact Hown|].
  unfold blueprint_find.
  destruct (find _ _) as [k|] eqn:E; [|reflexivity].
  apply find_some in E. destruct E as [_ E]. rewrite Hown in E. discriminate.
Qed.

(** ** Lemmas on the Time Interpolator *)

Lemma interpolate_ge_start seg off : (Segment.start_s seg <= interpolate seg off)%Q.
Proof. unfold interpolate. apply Q.le_max_l. Qed.

Lemma interpolate_le_end seg off :
  (Segment.start_s seg <= Segment.end_s seg)%Q -> (interpolate seg off <= Segment.end_s seg)%Q.
Proof. intros H. unfold interpolate. apply Q.max_lub; [exact H|apply Q.le_min_r]. Qed.

Lemma max1_pos (n : nat) : (0 < inject_Z (Z.max 1 (Z.of_nat n)))%Q.
Proof. unfold Qlt. simpl. lia. Qed.

Lemma interpolate_mono seg a b :
  (Segment.start_s seg <= Segment.end_s seg)%Q -> (a <= b)%Z ->
  (interpolate seg a <= interpolate seg b)%Q.
Proof.
  intros Hv Hab. unfold interpolate.
  apply Q.max_le_compat_l. apply Q.min_le_compat_r.
  apply Qplus_le_compat; [apply Qle_refl|].
  apply Qmult_le_compat_r; [|lra].
  unfold Qdiv. apply Qmult_le_compat_r.
  - rewrite <- Zle_Qle. exact Hab.
  - apply Qinv_le_0_compat. apply Qlt_le_weak. apply max1_pos.
Qed.

(** A non-positive local offset gives [start_s], whatever the segment. *)
Lemma interpolate_nonpos seg off :
  (off <= 0)%Z -> (interpolate seg off == Segment.start_s seg)%Q.
Proof.
  intros Hoff. unfold interpolate. apply Q.max_l.
  set (r := (inject_Z off / inject_Z (Z.max 1 (Z.of_nat (seg_len seg))))%Q).
  assert (Hr : (r <= 0)%Q).
  { unfold r. apply Qle_shift_div_r; [apply max1_pos|].
    rewrite Qmult_0_l. change 0%Q with (inject_Z 0). rewrite <- Zle_Qle. exact Hoff. }
  destruct (Qlt_le_dec (Segment.end_s seg) (Segment.start_s seg)) as [Hlt|Hle].
  - apply Qle_trans with (Segment.end_s seg); [apply Q.le_min_r|lra].
  - apply Qle_trans with (Segment.start_s seg + r * (Segment.end_s seg - Segment.start_s seg))%Q;
      [apply Q.le_min_l|nra].
Qed.

(** Offset [len(text)] of a valid segment with non-empty text gives [end_s]. *)
Lemma interpolate_full seg :
  (Segment.start_s seg <= Segment.end_s seg)%Q -> 0 < seg_len seg ->
  (interpolate seg (Z.of_nat (seg_len seg)) == Segment.end_s seg)%Q.
Proof.
  intros Hv Hlen. unfold interpolate.
  replace (Z.max 1 (Z.of_nat (seg_len seg))) with (Z.of_nat (seg_len seg)) by lia.
  assert (Hq : (inject_Z (Z.of_nat (seg_len seg)) / inject_Z (Z.of_nat (seg_len seg)) == 1)%Q).
  { unfold Qdiv. apply Qmult_inv_r. unfold Qeq. simpl. lia. }
  rewrite Hq.
  assert (Ht : (Segment.start_s seg + 1 * (Segment.end_s seg - Segment.start_s seg)
                == Segment.end_s seg)%Q) by ring.
  rewrite Ht. rewrite Q.min_id. apply Q.max_r. exact Hv.
Qed.

(** ** C7: Time Interpolator *)

(** A local offset returned by [locate] never exceeds the position. *)
Lemma locate_offset_le idx p k off :
  locate idx p = inr (At k off) -> off <= Z.to_nat p.
Proof.
  unfold locate. destruct (_ || _); [discriminate|]. cbv zeta.
  destruct (Z.to_nat p =? total_length idx);
    [destruct (find_last (fun e => cumulative_start_char e <? cumulative_end_char e) idx)|];
    try (intros [= _ <-]; lia);
    destruct (find_last (fun e => cumulative_start_char e <=? Z.to_nat p) idx);
    try discriminate; intros [= _ <-]; lia.
Qed.

Lemma sum_len_all_empty segs :
  (forall s, In s segs -> seg_len s = 0) -> sum_len segs = 0.
Proof.
  induction segs as [|a l IH]; intros H; [reflexivity|]. simpl.
  rewrite (H a (or_introl eq_refl)), IH; [reflexivity|].
  intros s Hs. apply H. right. exact Hs.
Qed.

(** [locate] resolves a position into a segment with empty text only at
    local offset 0. *)
Lemma locate_empty_segment_offset segs p k off s :
  locate (build segs) p = inr (At k off) -> nth_error segs k = Some s ->
  seg_len s = 0 -> off = 0.
Proof.
  intros Hloc Hs Hlen.
  destruct (Z_le_dec 0 p) as [H0|H0];
    [|rewrite locate_err in Hloc by lia; discriminate].
  destruct (Z_le_dec p (Z.of_nat (total_length (build segs)))) as [H1|H1];
    [|rewrite locate_err in Hloc by lia; discriminate].
  rewrite total_build in H1.
  destruct (Z_of_nat_complete p H0) as [n ->].
  destruct (Nat.lt_ge_cases n (sum_len segs)) as [Hn|Hn].
  - destruct (locate_interior segs n Hn) as (k' & s' & Hs' & Hin & Hloc').
    rewrite Hloc in Hloc'. injection Hloc' as -> _.
    rewrite Hs in Hs'. injection Hs' as ->. lia.
  - assert (Hn' : n = sum_len segs) by lia. subst n.
    destruct (existsb (fun x => 0 <? seg_len x) segs) eqn:Hex.
    + apply existsb_exists in Hex as (x & Hx & Hpos). apply Nat.ltb_lt in Hpos.
      destruct (In_nth_error _ _ Hx) as [j Hj].
      destruct (locate_at_total segs (ex_intro _ j (ex_intro _ x (conj Hj Hpos))))
        as (k' & s' & Hs' & Hpos' & _ & _ & Hloc').
      rewrite Hloc in Hloc'. injection Hloc' as -> ->.
      rewrite Hs in Hs'. injection Hs' as ->. lia.
    + assert (Hz : sum_len segs = 0).
      { apply sum_len_all_empty. intros x Hx.
        destruct (seg_len x) eqn:E; [reflexivity|].
        assert (Ht : existsb (fun x => 0 <? seg_len x) segs = true).
        { apply existsb_exists. exists x. split; [exact Hx|]. rewrite E. reflexivity. }
        congruence. }
      pose proof (locate_offset_le _ _ _ _ Hloc) as Hle.
      rewrite Nat2Z.id, Hz in Hle. lia.
Qed.

(** Claim C7 as stated. *)
Definition interpolation_claim : Prop :=
  forall (seg : Segment.TranscriptSegment) (off : Z),
    interpolate seg off =
      Qmax (Segment.start_s seg)
           (Qmin (Segment.start_s seg
                  + (inject_Z off / inject_Z (Z.max 1 (Z.of_nat (seg_len seg))))
                    * (Segment.end_s seg - Segment.start_s seg))%Q
                 (Segment.end_s seg)) /\
    (Segment.text seg = ""%string -> (interpolate seg off == Segment.start_s seg)%Q) /\
    ((Segment.start_s seg <= Segment.end_s seg)%Q ->
       (interpolate seg 0 == Segment.start_s seg)%Q /\
       (interpolate seg (Z.of_nat (seg_len seg)) == Segment.end_s seg)%Q).

(** C7 (counterexample). A silent segment (empty text over [0,5]) at local
    offset 1 interpolates to 5, not to [start_s = 0]; and at offset
    [len(text) = 0] it gives 0, not [end_s = 5]. *)
Lemma interpolate_silent_segment : ~ interpolation_claim.
Proof.
  intros H. destruct (H silent_segment 1%Z) as (_ & Hempty & _).
  specialize (Hempty eq_refl). unfold Qeq in Hempty. vm_compute in Hempty. discriminate.
Qed.

(** C7 (amended). [interpolate] is the formula
    [start_s + (local_offset / max(1, len(text))) * (end_s - start_s)]
    clamped as [max(start_s, min(t, end_s))], with no division by zero; a
    local offset [<= 0] (in particular 0, the only local offset [locate] gives
    inside an empty segment) yields [start_s] for every segment, including one
    with empty text; offset [len(text)] yields [end_s] for every valid
    segment with non-empty text; a segment with empty text and a positive
    offset yields [max(start_s, min(start_s + local_offset*(end_s - start_s), end_s))];
    and whenever [locate] resolves a position into a segment with empty
    text, its local offset is 0, so that position's time is [start_s]. *)
Theorem interpolate_spec (seg : Segment.TranscriptSegment) (off : Z) :
  interpolate seg off =
    Qmax (Segment.start_s seg)
         (Qmin (Segment.start_s seg
                + (inject_Z off / inject_Z (Z.max 1 (Z.of_nat (seg_len seg))))
                  * (Segment.end_s seg - Segment.start_s seg))%Q
               (Segment.end_s seg)) /\
  ((off <= 0)%Z -> (interpolate seg off == Segment.start_s seg)%Q) /\
  ((Segment.start_s seg <= Segment.end_s seg)%Q -> 0 < seg_len seg ->
     (interpolate seg (Z.of_nat (seg_len seg)) == Segment.end_s seg)%Q) /\
  (Segment.text seg = ""%string -> (0 < off)%Z ->
     (interpolate seg off ==
      Qmax (Segment.start_s seg)
           (Qmin (Segment.start_s seg + inject_Z off * (Segment.end_s seg - Segment.start_s seg))
                 (Segment.end_s seg)))%Q) /\
  (forall segs p k loff,
     locate (build segs) p = inr (At k loff) -> nth_error segs k = Some seg ->
     Segment.text seg = ""%string ->
     loff = 0 /\ (interpolate seg (Z.of_nat loff) == Segment.start_s seg)%Q).
Proof.
  split; [reflexivity|]. split; [apply interpolate_nonpos|].
  split; [apply interpolate_full|]. split.
  2:{ intros segs p k loff Hloc Hs Htext.
      assert (Hz : loff = 0).
      { apply (locate_empty_segment_offset segs p k loff seg Hloc Hs).
        unfold seg_len. rewrite Htext. reflexivity. }
      split; [exact Hz|]. subst loff. apply interpolate_nonpos. lia. }
  intros Htext _. unfold interpolate, seg_len. rewrite Htext. simpl String.length.
  change (Z.max 1 (Z.of_nat 0)) with 1%Z. unfold Qdiv.
  change (/ inject_Z 1)%Q with 1%Q. rewrite Qmult_1_r. reflexivity.
Qed.

Lemma interpolate_spec_witness :
  (0 <= 0)%Z /\ (interpolate silent_segment 0 == 0)%Q /\
  locate (build [silent_segment]) 0 = inr (At 0 0) /\
  nth_error [silent_segment] 0 = Some silent_segment /\
  Segment.text silent_segment = ""%string /\
  (0 = 0 /\ (interpolate silent_segment (Z.of_nat 0) == Segment.start_s silent_segment)%Q).
Proof.
  split; [lia|]. split.
  - exact (proj1 (proj2 (interpolate_spec silent_segment 0%Z)) ltac:(lia)).
  - split; [reflexivity|]. split; [reflexivity|]. split; [reflexivity|].
    exact (proj2 (proj2 (proj2 (proj2 (interpolate_spec silent_segment 0%Z))))
             [silent_segment] 0%Z 0 0 eq_refl eq_refl eq_refl).
Defined.

(** ** C3: the mapped times are ordered *)

Lemma validate_segment_durations segs :
  validate_segments segs = None ->
  forall s, In s segs -> (Segment.start_s s <= Segment.end_s s)%Q.
Proof.
  unfold validate_segments. intros H s Hin.
  destruct (sorted_by_start segs); simpl in H; [|discriminate].
  destruct (forallb _ segs) eqn:Hall; simpl in H; [|discriminate].
  rewrite forallb_forall in Hall. apply Qle_bool_iff. exact (Hall s Hin).
Qed.

Lemma non_overlapping_tail a rest :
  non_overlapping (a :: rest) = true -> non_overlapping rest = true.
Proof.
  destruct rest as [|b r]; [reflexivity|]. simpl. intros H. apply andb_true_iff in H. apply H.
Qed.

(** Time spans of non-overlapping valid segments are ordered. *)
Lemma non_overlapping_order segs :
  (forall s, In s segs -> (Segment.start_s s <= Segment.end_s s)%Q) ->
  non_overlapping segs = true ->
  forall i j a b, i < j -> nth_error segs i = Some a -> nth_error segs j = Some b ->
    (Segment.end_s a <= Segment.start_s b)%Q.
Proof.
  induction segs as [|x rest IH]; intros Hv Hno i j a b Hij Ha Hb;
    [destruct i; discriminate|].
  assert (Hv' : forall s, In s rest -> (Segment.start_s s <= Segment.end_s s)%Q)
    by (intros s Hs; apply Hv; right; exact Hs).
  pose proof (non_overlapping_tail _ _ Hno) as Hno'.
  destruct i as [|i], j as [|j]; try lia.
  - simpl in Ha. injection Ha as <-. simpl in Hb.
    destruct rest as [|y r]; [destruct j; discriminate|].
    simpl in Hno. apply andb_true_iff in Hno. destruct Hno as [Hxy _].
    apply Qle_bool_iff in Hxy.
    destruct j as [|j].
    + simpl in Hb. injection Hb as <-. exact Hxy.
    + apply Qle_trans with (Segment.start_s y); [exact Hxy|].
      apply Qle_trans with (Segment.end_s y); [apply Hv'; left; reflexivity|].
      exact (IH Hv' Hno' 0 (S j) y b ltac:(lia) eq_refl Hb).
  - exact (IH Hv' Hno' i j a b ltac:(lia) Ha Hb).
Qed.

(** The locations found by [map_one] for an extraction it maps, with
    [start_char < end_char]. *)
Lemma map_one_located segs ex ent :
  (Extraction.start_char ex < Extraction.end_char ex)%Z ->
  map_one (build segs) segs ex = inr ent ->
  exists n m k j sk sj,
    Extraction.start_char ex = Z.of_nat n /\ Extraction.end_char ex = Z.of_nat m /\
    nth_error segs k = Some sk /\ nth_error segs j = Some sj /\
    cum_start segs k <= n < cum_start segs k + seg_len sk /\
    cum_start segs j < m <= cum_start segs j + seg_len sj /\
    Entity.start_s ent = interpolate sk (Z.of_nat (n - cum_start segs k)) /\
    Entity.end_s ent = interpolate sj (Z.of_nat (m - cum_start segs j)) /\
    Entity.speaker ent = Some (Segment.speaker sk).
Proof.
  intros Hlt Hmap. unfold map_one in Hmap.
  assert (Hsr : (0 <= Extraction.start_char ex <= Z.of_nat (total_length (build segs)))%Z).
  { destruct (Z_lt_le_dec (Extraction.start_char ex) 0);
      [rewrite locate_err in Hmap by lia; discriminate|].
    destruct (Z_lt_le_dec (Z.of_nat (total_length (build segs))) (Extraction.start_char ex));
      [rewrite locate_err in Hmap by lia; discriminate|].
    lia. }
  destruct (locate_ok _ _ Hsr) as [ls Hls]. rewrite Hls in Hmap.
  assert (Her : (0 <= Extraction.end_char ex <= Z.of_nat (total_length (build segs)))%Z).
  { destruct (Z_lt_le_dec (Z.of_nat (total_length (build segs))) (Extraction.end_char ex));
      [rewrite locate_end_err in Hmap by lia; discriminate|].
    lia. }
  rewrite total_build in Hsr, Her.
  destruct (Z_of_nat_complete _ (proj1 Hsr)) as [n Hn].
  destruct (Z_of_nat_complete _ (proj1 Her)) as [m Hm].
  rewrite Hn in Hls, Hsr, Hlt. rewrite Hm in Hmap, Her, Hlt.
  destruct (locate_interior segs n ltac:(lia)) as (k & sk & Hsk & Hin & Hl).
  destruct (locate_end_inner segs m ltac:(lia)) as (j & sj & Hsj & Hin' & Hl').
  rewrite Hl in Hls. injection Hls as <-. rewrite Hl' in Hmap.
  cbn [resolve] in Hmap. rewrite Hsk, Hsj in Hmap. injection Hmap as <-.
  exists n, m, k, j, sk, sj. repeat split; assumption || reflexivity || lia.
Qed.

(** Claim C3 as stated: segments sorted by non-decreasing [start_s] with
    [end_s >= start_s] (the check of [validate_segments]). *)
Definition time_order_claim : Prop :=
  forall segs ex ent,
    validate_segments segs = None ->
    (Extraction.start_char ex < Extraction.end_char ex)%Z ->
    map_one (build segs) segs ex = inr ent ->
    (Entity.start_s ent <= Entity.end_s ent)%Q.

(** C3 (counterexample). Segments [0,100] "ab" and [1,2] "cd" are sorted by
    start time and have non-negative durations but overlap in time; the
    extraction [1..3] gets [start_s = 50] and [end_s = 3/2]. *)
Lemma time_order_overlapping_segments : ~ time_order_claim.
Proof.
  intros H.
  specialize (H overlapping_segments ex_across _ eq_refl ltac:(vm_compute; reflexivity) eq_refl).
  vm_compute in H. apply H. reflexivity.
Qed.

(** C3 (amended). For every extraction with [start_char < end_char] mapped
    over a valid segment sequence whose segments do not overlap in time (each
    segment ends no later than the next starts), [start_s <= end_s]. *)
Theorem map_one_time_order (segs : list Segment.TranscriptSegment)
  (ex : Extraction.Extraction) (ent : Entity.WorkflowEntity)
  (Hvalid : validate_segments segs = None)
  (Hno : non_overlapping segs = true)
  (Hlt : (Extraction.start_char ex < Extraction.end_char ex)%Z)
  (Hmap : map_one (build segs) segs ex = inr ent) :
  (Entity.start_s ent <= Entity.end_s ent)%Q.
Proof.
  destruct (map_one_located segs ex ent Hlt Hmap)
    as (n & m & k & j & sk & sj & Hn & Hm & Hsk & Hsj & Hin & Hin' & Ht0 & Ht1 & _).
  rewrite Ht0, Ht1. rewrite Hn, Hm in Hlt.
  pose proof (validate_segment_durations segs Hvalid) as Hdur.
  destruct (Nat.lt_trichotomy j k) as [Hjk|[Hjk|Hjk]].
  - exfalso. pose proof (cum_start_mono segs (S j) k ltac:(lia)) as Hmono.
    rewrite (cum_start_succ _ _ _ Hsj) in Hmono. lia.
  - subst j. rewrite Hsk in Hsj. injection Hsj as <-.
    apply interpolate_mono; [apply Hdur; eapply nth_error_In; exact Hsk|lia].
  - apply Qle_trans with (Segment.end_s sk).
    + apply interpolate_le_end. apply Hdur. eapply nth_error_In. exact Hsk.
    + apply Qle_trans with (Segment.start_s sj).
      * exact (non_overlapping_order segs Hdur Hno k j sk sj Hjk Hsk Hsj).
      * apply interpolate_ge_start.
Qed.

Lemma map_one_time_order_witness :
  exists ent, map_one (build two_segments) two_segments ex_world = inr ent /\
    (Entity.start_s ent <= Entity.end_s ent)%Q.
Proof.
  eexists. split; [reflexivity|].
  apply (map_one_time_order two_segments ex_world); reflexivity.
Defined.

(** ** C4: batch totality of the Extraction Mapper *)

Lemma map_one_out_of_range idx segs ex :
  out_of_range (total_length idx) ex = true ->
  exists err, map_one idx segs ex = inl err /\
    names_offending_offset (total_length idx) (ex, err).
Proof.
  unfold out_of_range, map_one, names_offending_offset. intros H.
  destruct (Z_le_dec 0 (Extraction.start_char ex)) as [H1|H1];
    [destruct (Z_le_dec (Extraction.start_char ex) (Z.of_nat (total_length idx))) as [H2|H2]|].
  - destruct (locate_ok idx _ (conj H1 H2)) as [ls Hls]. rewrite Hls.
    assert (Hr : ~ (0 <= Extraction.end_char ex <= Z.of_nat (total_length idx))%Z).
    { intros [H3 H4]. apply Z.leb_le in H1, H2, H3, H4.
      rewrite H1, H2, H3, H4 in H. discriminate. }
    rewrite locate_end_err by exact Hr. eexists. split; [reflexivity|]. simpl.
    split; [reflexivity|]. split; [reflexivity|]. split; [exact Hr|].
    split; [right; reflexivity|]. intros Hs. exfalso. lia.
  - rewrite locate_err by lia. eexists. split; [reflexivity|]. simpl.
    split; [reflexivity|]. split; [reflexivity|]. split; [lia|].
    split; [left; reflexivity|]. intros _. reflexivity.
  - rewrite locate_err by lia. eexists. split; [reflexivity|]. simpl.
    split; [reflexivity|]. split; [reflexivity|]. split; [lia|].
    split; [left; reflexivity|]. intros _. reflexivity.
Qed.

Lemma map_one_in_range idx segs ex :
  out_of_range (total_length idx) ex = false ->
  exists ent, map_one idx segs ex = inr ent.
Proof.
  unfold out_of_range, map_one. intros H. apply negb_false_iff in H.
  repeat rewrite andb_true_iff in H. destruct H as [[[H1 H2] H3] H4].
  apply Z.leb_le in H1, H2, H3, H4.
  destruct (locate_ok idx _ (conj H1 H2)) as [ls Hls]. rewrite Hls.
  destruct (locate_end_ok idx _ (conj H3 H4)) as [le Hle]. rewrite Hle.
  destruct (resolve segs ls), (resolve segs le). eexists. reflexivity.
Qed.

Lemma map_batch_counts idx segs exs :
  let '(ents, skips) := map_batch idx segs exs in
  List.length ents + List.length skips = List.length exs /\
  map fst skips = filter (out_of_range (total_length idx)) exs /\
  Forall (names_offending_offset (total_length idx)) skips.
Proof.
  induction exs as [|ex rest IH]; simpl; [repeat constructor|].
  destruct (map_batch idx segs rest) as [ents skips].
  destruct IH as (Hlen & Hfst & Hcite).
  destruct (out_of_range (total_length idx) ex) eqn:Hoor.
  - destruct (map_one_out_of_range idx segs ex Hoor) as (err & Herr & Hbad).
    rewrite Herr. simpl. split; [lia|]. split; [f_equal; exact Hfst|].
    constructor; [exact Hbad|exact Hcite].
  - destruct (map_one_in_range idx segs ex Hoor) as (ent & Hent).
    rewrite Hent. simpl. split; [lia|]. split; [exact Hfst|exact Hcite].
Qed.

(** Claim C4 as stated, for every segment sequence. *)
Definition batch_totality_claim : Prop :=
  forall segs exs,
    let M := List.length (filter (out_of_range (total_length (build segs))) exs) in
    exists ents skips, map_all segs exs = inr (ents, skips) /\
      List.length ents = List.length exs - M /\ List.length skips = M.

(** C4 (counterexample). With the segments of the scenario in reverse time
    order, the batch holding the one in-range extraction [6..11] raises a
    DataError instead of returning one entity. *)
Lemma batch_totality_unsorted : ~ batch_totality_claim.
Proof.
  intros H. destruct (H [seg_B; seg_A] [ex_world]) as (ents & skips & Hmap & _).
  vm_compute in Hmap. discriminate.
Qed.

(** C4 (amended). For every segment sequence that passes the DataError
    check (sorted by start time, no negative duration) and every batch of
    [N] extractions of which [M] have [start_char] or [end_char] outside
    [[0, total_length]], [map_all] returns [N - M] entities and [M] skip
    records: the skipped extractions are exactly the out-of-range ones, in
    order, each with the RangeError naming its offending offset (a value
    outside [[0, total_length]], its [start_char] when that one is out of
    range and its [end_char] otherwise) and the valid range
    [[0, total_length]]. *)
Theorem map_all_totality (segs : list Segment.TranscriptSegment)
  (exs : list Extraction.Extraction)
  (Hvalid : validate_segments segs = None) :
  let M := List.length (filter (out_of_range (total_length (build segs))) exs) in
  exists ents skips, map_all segs exs = inr (ents, skips) /\
    List.length ents = List.length exs - M /\ List.length skips = M /\
    map fst skips = filter (out_of_range (total_length (build segs))) exs /\
    Forall (names_offending_offset (total_length (build segs))) skips.
Proof.
  intros M. unfold map_all. rewrite Hvalid.
  pose proof (map_batch_counts (build segs) segs exs) as Hc.
  destruct (map_batch (build segs) segs exs) as [ents skips].
  destruct Hc as (Hlen & Hfst & Hcite).
  assert (HM : List.length skips = M).
  { unfold M. rewrite <- Hfst, length_map. reflexivity. }
  exists ents, skips. split; [reflexivity|]. split; [lia|].
  split; [exact HM|]. split; [exact Hfst|exact Hcite].
Qed.

Lemma map_all_totality_witness :
  exists ents skips,
    map_all two_segments [ex_world; Extraction.mk "quote" 100 101 "x" []] = inr (ents, skips) /\
    List.length ents = 1 /\ List.length skips = 1.
Proof.
  destruct (map_all_totality two_segments [ex_world; Extraction.mk "quote" 100 101 "x" []]
              eq_refl) as (ents & skips & Hmap & Hl & Hs & _).
  exists ents, skips. split; [exact Hmap|]. split; [exact Hl|exact Hs].
Defined.

(** ** C5: fail-fast DataError *)

Lemma sorted_by_start_pairwise segs :
  sorted_by_start segs = true ->
  forall i j a b, i < j -> nth_error segs i = Some a -> nth_error segs j = Some b ->
    (Segment.start_s a <= Segment.start_s b)%Q.
Proof.
  induction segs as [|x rest IH]; intros Hs i j a b Hij Ha Hb; [destruct i; discriminate|].
  assert (Hs' : sorted_by_start rest = true).
  { destruct rest as [|y r]; [reflexivity|]. simpl in Hs. apply andb_true_iff in Hs. apply Hs. }
  destruct i as [|i], j as [|j]; try lia.
  - simpl in Ha. injection Ha as <-. simpl in Hb.
    destruct rest as [|y r]; [destruct j; discriminate|].
    simpl in Hs. apply andb_true_iff in Hs. destruct Hs as [Hxy _].
    apply Qle_bool_iff in Hxy.
    destruct j as [|j].
    + simpl in Hb. injection Hb as <-. exact Hxy.
    + apply Qle_trans with (Segment.start_s y); [exact Hxy|].
      exact (IH Hs' 0 (S j) y b ltac:(lia) eq_refl Hb).
  - exact (IH Hs' i j a b ltac:(lia) Ha Hb).
Qed.

(** C5. If the segment sequence is not sorted by non-decreasing [start_s]
    (two segments [i < j] with [start_s] of [j] below that of [i]) or holds a
    segment with [end_s < start_s], [map_all] fails with a DataError for
    every batch of extractions: it returns no entity and no skip record. *)
Theorem map_all_data_error (segs : list Segment.TranscriptSegment)
  (exs : list Extraction.Extraction)
  (Hbad : (exists i j a b, i < j /\ nth_error segs i = Some a /\ nth_error segs j = Some b /\
                           (Segment.start_s b < Segment.start_s a)%Q) \/
          (exists s, In s segs /\ (Segment.end_s s < Segment.start_s s)%Q)) :
  exists err, map_all segs exs = inl err.
Proof.
  unfold map_all.
  destruct (validate_segments segs) as [err|] eqn:Hv; [eauto|exfalso].
  destruct Hbad as [(i & j & a & b & Hij & Ha & Hb & Hlt)|(s & Hin & Hlt)].
  - unfold validate_segments in Hv.
    destruct (sorted_by_start segs) eqn:Hs; simpl in Hv; [|discriminate].
    pose proof (sorted_by_start_pairwise segs Hs i j a b Hij Ha Hb). lra.
  - pose proof (validate_segment_durations segs Hv s Hin). lra.
Qed.

Lemma map_all_data_error_witness :
  exists err, map_all [seg_B; seg_A] [ex_world] = inl err.
Proof.
  apply map_all_data_error. left.
  exists 0, 1, seg_B, seg_A. split; [lia|]. split; [reflexivity|]. split; [reflexivity|].
  reflexivity.
Defined.

(** ** C6: completeness of the Profile Aggregator *)

Lemma push_bucket p b' e b :
  profile_bucket (push p b' e) b =
  if bucket_eqb b' b then profile_bucket p b ++ [e] else profile_bucket p b.
Proof. destruct p, b', b; reflexivity. Qed.

Lemma aggregate_from_bucket es p b :
  profile_bucket (fold_left add_entity es p) b =
  profile_bucket p b ++
    map tag (filter (fun e => bucket_eqb (bucket_of_category (Entity.category e)) b) es).
Proof.
  revert p; induction es as [|e rest IH]; intros p; simpl; [rewrite app_nil_r; reflexivity|].
  rewrite IH. unfold add_entity. rewrite push_bucket.
  destruct (bucket_eqb (bucket_of_category (Entity.category e)) b); simpl;
    [rewrite <- app_assoc; reflexivity|reflexivity].
Qed.

Lemma bucket_filters_count es :
  fold_right (fun b n => List.length
                 (filter (fun e => bucket_eqb (bucket_of_category (Entity.category e)) b) es) + n)
             0 all_buckets = List.length es.
Proof.
  induction es as [|e rest IH]; [reflexivity|].
  simpl in *. destruct (bucket_of_category (Entity.category e)); simpl; lia.
Qed.

Ltac not_fixed_category Hn :=
  repeat match goal with
  | |- context [String.eqb ?c ?k] =>
      destruct (String.eqb_spec c k) as [Heq|_];
      [exfalso; apply Hn; rewrite Heq; simpl; tauto|]
  end.

Lemma unknown_category_unclassified c :
  ~ In c fixed_categories -> bucket_of_category c = Unclassified.
Proof. intros Hn. unfold bucket_of_category. not_fixed_category Hn. reflexivity. Qed.

(** C6. [aggregate] puts every input entity in exactly one bucket, the one of
    its category, keeping input order; an entity whose category is outside
    the fixed closed set goes to [unclassified] with its category name kept
    as the attribute [original_category]; the count over all buckets,
    unclassified included, is the length of the input. *)
Theorem aggregate_complete (es : list Entity.WorkflowEntity) :
  (forall b, profile_bucket (aggregate es) b =
     map tag (filter (fun e => bucket_eqb (bucket_of_category (Entity.category e)) b) es)) /\
  profile_count (aggregate es) = List.length es /\
  (forall e, In (Entity.category e) fixed_categories \/
     (bucket_of_category (Entity.category e) = Unclassified /\
      In ("original_category"%string, Some (Entity.category e)) (Entity.attributes (tag e)))).
Proof.
  assert (Hb : forall b, profile_bucket (aggregate es) b =
     map tag (filter (fun e => bucket_eqb (bucket_of_category (Entity.category e)) b) es)).
  { intros b. unfold aggregate. rewrite aggregate_from_bucket. destruct b; reflexivity. }
  split; [exact Hb|]. split.
  - rewrite <- bucket_filters_count. unfold profile_count.
    unfold all_buckets. cbn [fold_right]. rewrite !Hb, !length_map. reflexivity.
  - intros e. destruct (in_dec string_dec (Entity.category e) fixed_categories) as [Hin|Hn];
      [left; exact Hin|right].
    pose proof (unknown_category_unclassified _ Hn) as Hu.
    split; [exact Hu|]. unfold tag. rewrite Hu. left. reflexivity.
Qed.

Example aggregate_unknown_category :
  unclassified (aggregate [Entity.mk "sentiment" "x" 0 1 (Some "A"%string) []]) =
  [Entity.mk "sentiment" "x" 0 1 (Some "A"%string)
     [("original_category"%string, Some "sentiment"%string)]].
Proof. reflexivity. Qed.

(** ** The mapping procedure of the blueprint (part_002, §D) *)

(** *** Lemmas on [full_text] *)

Lemma string_length_app (s t : string) :
  String.length (s ++ t) = String.length s + String.length t.
Proof. induction s as [|c s IH]; simpl; [reflexivity|]. rewrite IH. reflexivity. Qed.

Lemma substring_prefix (s t : string) : substring 0 (String.length s) (s ++ t) = s.
Proof. induction s as [|c s IH]; simpl; [destruct t; reflexivity|]. rewrite IH. reflexivity. Qed.

Lemma substring_skip (s t : string) n m :
  substring (String.length s + n) m (s ++ t) = substring n m t.
Proof. induction s as [|c s IH]; simpl; [reflexivity|]. exact IH. Qed.

Lemma get_in_bounds (s : string) n : n < String.length s -> get n s <> None.
Proof.
  revert n; induction s as [|c s IH]; intros [|n] H; simpl in *; try lia; try discriminate.
  apply IH. lia.
Qed.

Lemma full_text_sum_len segs : String.length (full_text segs) = sum_len segs.
Proof.
  induction segs as [|s segs IH]; simpl; [reflexivity|].
  rewrite string_length_app, IH. reflexivity.
Qed.

Lemma full_text_substring segs k s :
  nth_error segs k = Some s ->
  substring (cum_start segs k) (seg_len s) (full_text segs) = Segment.text s.
Proof.
  unfold cum_start. revert k; induction segs as [|a segs IH]; intros [|k] H;
    simpl in H; try discriminate.
  - injection H as <-. simpl. apply substring_prefix.
  - simpl. unfold seg_len at 1. rewrite substring_skip. exact (IH k H).
Qed.

Lemma full_text_get segs k s off :
  nth_error segs k = Some s -> off < seg_len s ->
  get (cum_start segs k + off) (full_text segs) = get off (Segment.text s).
Proof.
  unfold cum_start. revert k; induction segs as [|a segs IH]; intros [|k] H Hoff;
    simpl in H; try discriminate.
  - injection H as <-. simpl. symmetry. apply append_correct1. exact Hoff.
  - simpl. rewrite <- (IH k H Hoff).
    replace (seg_len a + sum_len (firstn k segs) + off)
      with ((sum_len (firstn k segs) + off) + String.length (Segment.text a))
      by (unfold seg_len; lia).
    symmetry. apply append_correct2.
Qed.

(** *** Lemmas on the blueprint's lookup *)

Lemma blueprint_owns_iff segs k p :
  blueprint_owns segs k p = true <->
  exists s, nth_error segs k = Some s /\ cum_start segs k <= p < cum_start segs k + seg_len s.
Proof.
  unfold blueprint_owns. rewrite build_nth.
  destruct (nth_error segs k) as [s|]; simpl.
  - rewrite andb_true_iff, Nat.leb_le, Nat.ltb_lt. split.
    + intros H. exists s. split; [reflexivity|exact H].
    + intros (s' & [= <-] & H). exact H.
  - split; [discriminate|]. intros (s' & H & _). discriminate.
Qed.

Lemma blueprint_find_some segs p k :
  blueprint_find segs p = Some k -> blueprint_owns segs k p = true.
Proof. unfold blueprint_find. intros H. apply find_some in H. apply H. Qed.

Lemma blueprint_find_of_owner segs p k :
  blueprint_owns segs k p = true -> blueprint_find segs p = Some k.
Proof.
  intros Hown. pose proof Hown as Hown'.
  apply blueprint_owns_iff in Hown' as (s & Hs & Hp).
  unfold blueprint_find.
  destruct (find _ _) as [k'|] eqn:E.
  - apply find_some in E as [_ E]. apply blueprint_owns_iff in E as (s' & Hs' & Hp').
    f_equal. exact (owner_unique segs k' k s' s p Hs' Hs Hp' Hp).
  - assert (Hin : In k (seq 0 (List.length segs))).
    { apply in_seq. split; [lia|]. simpl. apply nth_error_Some. congruence. }
    rewrite (find_none _ _ E k Hin) in Hown. discriminate.
Qed.

Lemma blueprint_find_below segs p :
  p < sum_len segs ->
  exists k s, blueprint_find segs p = Some k /\ nth_error segs k = Some s /\
    cum_start segs k <= p < cum_start segs k + seg_len s /\
    locate (build segs) (Z.of_nat p) = inr (At k (p - cum_start segs k)).
Proof.
  intros Hp. destruct (locate_interior segs p Hp) as (k & s & Hs & Hin & Hloc).
  exists k, s. split; [|split; [exact Hs|split; [exact Hin|exact Hloc]]].
  apply blueprint_find_of_owner, blueprint_owns_iff. eauto.
Qed.

Lemma blueprint_find_beyond segs p :
  sum_len segs <= p -> blueprint_find segs p = None.
Proof.
  intros Hp. destruct (blueprint_find segs p) as [k|] eqn:E; [|reflexivity].
  apply blueprint_find_some, blueprint_owns_iff in E as (s & Hs & Hin).
  pose proof (cum_start_bound _ _ _ Hs). lia.
Qed.

Lemma blueprint_position_some segs p k t :
  blueprint_position segs p = Some (k, t) ->
  exists s, nth_error segs k = Some s /\
    cum_start segs k <= p < cum_start segs k + seg_len s /\
    t = blueprint_time s (p - cum_start segs k).
Proof.
  unfold blueprint_position. destruct (blueprint_find segs p) as [k'|] eqn:E;
    [|discriminate].
  apply blueprint_find_some, blueprint_owns_iff in E as (s & Hs & Hin).
  rewrite build_nth, Hs. simpl. intros [= <- <-]. eauto.
Qed.

Lemma blueprint_position_below segs p :
  p < sum_len segs ->
  exists k s, nth_error segs k = Some s /\
    cum_start segs k <= p < cum_start segs k + seg_len s /\
    blueprint_position segs p = Some (k, blueprint_time s (p - cum_start segs k)) /\
    locate (build segs) (Z.of_nat p) = inr (At k (p - cum_start segs k)).
Proof.
  intros Hp. destruct (blueprint_find_below segs p Hp) as (k & s & Hf & Hs & Hin & Hloc).
  exists k, s. split; [exact Hs|]. split; [exact Hin|]. split; [|exact Hloc].
  unfold blueprint_position. rewrite Hf, build_nth, Hs. reflexivity.
Qed.

Lemma blueprint_position_none segs p :
  blueprint_position segs p = None <-> sum_len segs <= p.
Proof.
  split.
  - intros H. destruct (Nat.lt_ge_cases p (sum_len segs)) as [Hp|Hp]; [|exact Hp].
    destruct (blueprint_position_below segs p Hp) as (k & s & _ & _ & Hpos & _).
    congruence.
  - intros Hp. unfold blueprint_position. rewrite blueprint_find_beyond by exact Hp.
    reflexivity.
Qed.

(** *** Lemmas on the blueprint's time formula *)

Lemma blueprint_time_bounds seg off :
  (Segment.start_s seg <= Segment.end_s seg)%Q -> off <= seg_len seg ->
  (Segment.start_s seg <= blueprint_time seg off <= Segment.end_s seg)%Q /\
  (blueprint_time seg off == interpolate seg (Z.of_nat off))%Q.
Proof.
  intros Hv Hoff. unfold interpolate. fold (blueprint_time seg off).
  set (d := inject_Z (Z.max 1 (Z.of_nat (seg_len seg)))).
  set (r := (inject_Z (Z.of_nat off) / d)%Q).
  assert (Hd : (0 < d)%Q) by apply max1_pos.
  assert (Hr0 : (0 <= r)%Q).
  { unfold r. apply Qle_shift_div_l; [exact Hd|]. rewrite Qmult_0_l.
    change 0%Q with (inject_Z 0). rewrite <- Zle_Qle. lia. }
  assert (Hr1 : (r <= 1)%Q).
  { unfold r. apply Qle_shift_div_r; [exact Hd|]. rewrite Qmult_1_l.
    unfold d. rewrite <- Zle_Qle. lia. }
  assert (Ht : (Segment.start_s seg <= blueprint_time seg off <= Segment.end_s seg)%Q).
  { unfold blueprint_time. fold d. fold r. split; nra. }
  split; [exact Ht|].
  rewrite Q.min_l by apply Ht. symmetry. apply Q.max_r. apply Ht.
Qed.

Lemma blueprint_time_below_end seg off :
  (Segment.start_s seg < Segment.end_s seg)%Q -> off < seg_len seg ->
  (blueprint_time seg off < Segment.end_s seg)%Q.
Proof.
  intros Hv Hoff. unfold blueprint_time.
  replace (Z.max 1 (Z.of_nat (seg_len seg))) with (Z.of_nat (seg_len seg)) by lia.
  set (d := inject_Z (Z.of_nat (seg_len seg))).
  set (r := (inject_Z (Z.of_nat off) / d)%Q).
  assert (Hd : (0 < d)%Q) by (unfold d, Qlt; simpl; lia).
  assert (Hr1 : (r < 1)%Q).
  { unfold r. apply Qlt_shift_div_r; [exact Hd|]. rewrite Qmult_1_l.
    unfold d. rewrite <- Zlt_Qlt. lia. }
  nra.
Qed.

(** A position the blueprint resolves is the Offset Locator's position. *)
Lemma blueprint_position_locate segs p k t :
  blueprint_position segs p = Some (k, t) ->
  exists s, nth_error segs k = Some s /\
    cum_start segs k <= p < cum_start segs k + seg_len s /\
    t = blueprint_time s (p - cum_start segs k) /\
    locate (build segs) (Z.of_nat p) = inr (At k (p - cum_start segs k)).
Proof.
  intros Hpos. destruct (blueprint_position_some _ _ _ _ Hpos) as (s & Hs & Hin & Ht).
  pose proof (cum_start_bound _ _ _ Hs) as Hb.
  destruct (blueprint_position_below segs p ltac:(lia))
    as (k' & s' & Hs' & Hin' & Hpos' & Hloc).
  rewrite Hpos in Hpos'. injection Hpos' as <- _.
  exists s. split; [exact Hs|]. split; [exact Hin|]. split; [exact Ht|exact Hloc].
Qed.

(** *** Step 1: the concatenated transcript *)

(** X1. The concatenated [full_text] is exactly as long as the index's
    total length. *)
Theorem full_text_length (segs : list Segment.TranscriptSegment) :
  String.length (full_text segs) = total_length (build segs).
Proof. rewrite total_build. apply full_text_sum_len. Qed.

(** X2. The index entry of segment [k] delimits, in [full_text], exactly
    the text of segment [k]. *)
Theorem full_text_segment_text (segs : list Segment.TranscriptSegment) (k : nat)
  (e : IndexEntry) (s : Segment.TranscriptSegment)
  (He : nth_error (build segs) k = Some e) (Hs : nth_error segs k = Some s) :
  substring (cumulative_start_char e) (cumulative_end_char e - cumulative_start_char e)
    (full_text segs) = Segment.text s.
Proof.
  rewrite (build_entry_of segs k s Hs) in He. injection He as <-. simpl.
  replace (cum_start segs k + seg_len s - cum_start segs k) with (seg_len s) by lia.
  apply full_text_substring. exact Hs.
Qed.

Lemma full_text_segment_text_witness :
  nth_error (build two_segments) 1 = Some (mkEntry 1 11 18) /\
  nth_error two_segments 1 = Some seg_B /\
  substring 11 7 (full_text two_segments) = Segment.text seg_B.
Proof.
  split; [reflexivity|]. split; [reflexivity|].
  exact (full_text_segment_text two_segments 1 (mkEntry 1 11 18) seg_B eq_refl eq_refl).
Defined.

(** *** Step 3: finding the segment of a position *)

(** X3. The blueprint's search returns [k] exactly when segment [k] owns
    the position ([cum_start_char[k] <= pos < cum_start_char[k] + len(text_k)]):
    the owner, when there is one, is unique and is found. *)
Theorem blueprint_find_owner (segs : list Segment.TranscriptSegment) (p k : nat) :
  blueprint_find segs p = Some k <-> blueprint_owns segs k p = true.
Proof. split; [apply blueprint_find_some|apply blueprint_find_of_owner]. Qed.

(** X4. The blueprint's search finds no segment exactly for the positions
    at or beyond the total length. *)
Theorem blueprint_find_none_iff (segs : list Segment.TranscriptSegment) (p : nat) :
  blueprint_find segs p = None <-> total_length (build segs) <= p.
Proof.
  rewrite total_build. split.
  - intros H. destruct (Nat.lt_ge_cases p (sum_len segs)) as [Hp|Hp]; [|exact Hp].
    destruct (blueprint_find_below segs p Hp) as (k & s & Hf & _). congruence.
  - apply blueprint_find_beyond.
Qed.

(** X5. Below the total length the blueprint's search and the Offset
    Locator's start rule pick the same segment, at the same local offset. *)
Theorem blueprint_find_locate (segs : list Segment.TranscriptSegment) (p : nat)
  (Hp : p < total_length (build segs)) :
  exists k, blueprint_find segs p = Some k /\
    locate (build segs) (Z.of_nat p) = inr (At k (p - cum_start segs k)).
Proof.
  rewrite total_build in Hp.
  destruct (blueprint_find_below segs p Hp) as (k & s & Hf & _ & _ & Hloc). eauto.
Qed.

Lemma blueprint_find_locate_witness :
  11 < total_length (build two_segments) /\
  exists k, blueprint_find two_segments 11 = Some k /\
    locate (build two_segments) (Z.of_nat 11) = inr (At k (11 - cum_start two_segments k)).
Proof.
  split; [apply Nat.ltb_lt; vm_compute; reflexivity|].
  apply (blueprint_find_locate two_segments 11). apply Nat.ltb_lt; vm_compute; reflexivity.
Defined.

(** X6. The character of [full_text] at a resolved position is the
    character of the segment's text at [char_in_seg]. *)
Theorem blueprint_position_char (segs : list Segment.TranscriptSegment) (p k : nat) (t : Q)
  (Hpos : blueprint_position segs p = Some (k, t)) :
  exists s, nth_error segs k = Some s /\
    get p (full_text segs) = get (p - cum_start segs k) (Segment.text s) /\
    get p (full_text segs) <> None.
Proof.
  destruct (blueprint_position_some _ _ _ _ Hpos) as (s & Hs & Hin & _).
  assert (Hg : get p (full_text segs) = get (p - cum_start segs k) (Segment.text s)).
  { rewrite <- (full_text_get segs k s (p - cum_start segs k) Hs) by lia.
    f_equal. lia. }
  exists s. split; [exact Hs|]. split; [exact Hg|].
  rewrite Hg. apply get_in_bounds. unfold seg_len in Hin. lia.
Qed.

Lemma blueprint_position_char_witness :
  blueprint_position two_segments 6 = Some (0, blueprint_time seg_A 6) /\
  exists s, nth_error two_segments 0 = Some s /\
    get 6 (full_text two_segments) = get (6 - cum_start two_segments 0) (Segment.text s) /\
    get 6 (full_text two_segments) <> None.
Proof.
  split; [reflexivity|].
  apply (blueprint_position_char two_segments 6 0 (blueprint_time seg_A 6)).
  reflexivity.
Defined.

(** *** Step 3: the time formula *)

(** X7. For a segment with [start_s <= end_s] and an offset within its
    text, the unclamped formula stays in [[start_s, end_s]] and equals the
    clamped [interpolate]: the clamp only acts beyond the text. *)
Theorem blueprint_time_interpolate (seg : Segment.TranscriptSegment) (off : nat)
  (Hv : (Segment.start_s seg <= Segment.end_s seg)%Q) (Hoff : off <= seg_len seg) :
  (Segment.start_s seg <= blueprint_time seg off <= Segment.end_s seg)%Q /\
  (blueprint_time seg off == interpolate seg (Z.of_nat off))%Q.
Proof. exact (blueprint_time_bounds seg off Hv Hoff). Qed.

Lemma blueprint_time_interpolate_witness :
  (Segment.start_s seg_A <= Segment.end_s seg_A)%Q /\ 6 <= seg_len seg_A /\
  (Segment.start_s seg_A <= blueprint_time seg_A 6 <= Segment.end_s seg_A)%Q /\
  (blueprint_time seg_A 6 == interpolate seg_A (Z.of_nat 6))%Q.
Proof.
  assert (Hv : (Segment.start_s seg_A <= Segment.end_s seg_A)%Q)
    by (apply Qle_bool_iff; reflexivity).
  assert (Hl : 6 <= seg_len seg_A) by (apply Nat.leb_le; reflexivity).
  split; [exact Hv|]. split; [exact Hl|].
  exact (blueprint_time_interpolate seg_A 6 Hv Hl).
Defined.

(** X8. On valid segments a resolved position's time lies in its segment's
    span, and strictly before [end_s] when the segment has a positive
    duration: the blueprint never yields the [end_s] of such a segment. *)
Theorem blueprint_position_time (segs : list Segment.TranscriptSegment) (p k : nat) (t : Q)
  (Hvalid : validate_segments segs = None)
  (Hpos : blueprint_position segs p = Some (k, t)) :
  exists s, nth_error segs k = Some s /\
    (Segment.start_s s <= t <= Segment.end_s s)%Q /\
    ((Segment.start_s s < Segment.end_s s)%Q -> (t < Segment.end_s s)%Q).
Proof.
  destruct (blueprint_position_some _ _ _ _ Hpos) as (s & Hs & Hin & ->).
  assert (Hv : (Segment.start_s s <= Segment.end_s s)%Q)
    by (apply (validate_segment_durations segs Hvalid); eapply nth_error_In; exact Hs).
  exists s. split; [exact Hs|]. split.
  - apply (blueprint_time_bounds s); [exact Hv|lia].
  - intros Hlt. apply blueprint_time_below_end; [exact Hlt|lia].
Qed.

Lemma blueprint_position_time_witness :
  validate_segments two_segments = None /\
  blueprint_position two_segments 6 = Some (0, blueprint_time seg_A 6) /\
  exists s, nth_error two_segments 0 = Some s /\
    (Segment.start_s s <= blueprint_time seg_A 6 <= Segment.end_s s)%Q /\
    ((Segment.start_s s < Segment.end_s s)%Q -> (blueprint_time seg_A 6 < Segment.end_s s)%Q).
Proof.
  split; [reflexivity|]. split; [reflexivity|].
  apply (blueprint_position_time two_segments 6 0); reflexivity.
Defined.

(** X9. A position at the cumulative start of a segment with non-empty
    text resolves to that segment at its [start_s]; in particular an
    [end_pos] at a segment boundary gets the next segment's start time. *)
Theorem blueprint_boundary_start (segs : list Segment.TranscriptSegment) (j : nat)
  (s : Segment.TranscriptSegment)
  (Hs : nth_error segs j = Some s) (Hl : 0 < seg_len s) :
  exists t, blueprint_position segs (cum_start segs j) = Some (j, t) /\
    (t == Segment.start_s s)%Q.
Proof.
  assert (Hf : blueprint_find segs (cum_start segs j) = Some j).
  { apply blueprint_find_of_owner, blueprint_owns_iff. exists s.
    split; [exact Hs|lia]. }
  unfold blueprint_position. rewrite Hf, build_nth, Hs. simpl.
  eexists. split; [reflexivity|].
  unfold blueprint_time. rewrite Nat.sub_diag.
  change (inject_Z (Z.of_nat 0)) with 0%Q. unfold Qdiv. ring.
Qed.

Lemma blueprint_boundary_start_witness :
  nth_error two_segments 1 = Some seg_B /\ 0 < seg_len seg_B /\
  exists t, blueprint_position two_segments (cum_start two_segments 1) = Some (1, t) /\
    (t == Segment.start_s seg_B)%Q.
Proof.
  assert (Hl : 0 < seg_len seg_B) by (apply Nat.ltb_lt; reflexivity).
  split; [reflexivity|]. split; [exact Hl|].
  exact (blueprint_boundary_start two_segments 1 seg_B eq_refl Hl).
Defined.

(** *** Step 3 for a whole extraction *)

(** X10. The blueprint maps an extraction exactly when both its
    [start_pos] and its [end_pos] are below the total length; every
    extraction ending at the end of the transcript is left unmapped. *)
Theorem blueprint_map_defined (segs : list Segment.TranscriptSegment) (sp ep : nat) :
  (exists r, blueprint_map segs sp ep = Some r) <->
  sp < total_length (build segs) /\ ep < total_length (build segs).
Proof.
  rewrite total_build. unfold blueprint_map. split.
  - intros [r Hr].
    destruct (blueprint_position segs sp) eqn:E1; [|discriminate].
    destruct (blueprint_position segs ep) eqn:E2; [|discriminate].
    split.
    + destruct (Nat.lt_ge_cases sp (sum_len segs)) as [Hlt|Hge]; [exact Hlt|].
      apply blueprint_position_none in Hge. congruence.
    + destruct (Nat.lt_ge_cases ep (sum_len segs)) as [Hlt|Hge]; [exact Hlt|].
      apply blueprint_position_none in Hge. congruence.
  - intros [H1 H2].
    destruct (blueprint_position_below segs sp H1) as (k0 & s0 & _ & _ & -> & _).
    destruct (blueprint_position_below segs ep H2) as (k1 & s1 & _ & _ & -> & _).
    eexists. reflexivity.
Qed.

(** X11. On valid segments both times of a mapped extraction are the
    clamped interpolation at the position the Offset Locator's start rule
    gives, for [end_pos] too: "repeat for [end_pos]" resolves an end at a
    segment boundary to the following segment. *)
Theorem blueprint_map_locate (segs : list Segment.TranscriptSegment) (sp ep k0 k1 : nat)
  (t0 t1 : Q)
  (Hvalid : validate_segments segs = None)
  (Hmap : blueprint_map segs sp ep = Some ((k0, t0), (k1, t1))) :
  exists off0 off1,
    locate (build segs) (Z.of_nat sp) = inr (At k0 off0) /\
    locate (build segs) (Z.of_nat ep) = inr (At k1 off1) /\
    (t0 == snd (resolve segs (At k0 off0)))%Q /\
    (t1 == snd (resolve segs (At k1 off1)))%Q.
Proof.
  unfold blueprint_map in Hmap.
  destruct (blueprint_position segs sp) as [[k0' t0']|] eqn:E0; [|discriminate].
  destruct (blueprint_position segs ep) as [[k1' t1']|] eqn:E1; [|discriminate].
  injection Hmap as -> -> -> ->.
  destruct (blueprint_position_locate _ _ _ _ E0) as (s0 & Hs0 & Hin0 & -> & Hl0).
  destruct (blueprint_position_locate _ _ _ _ E1) as (s1 & Hs1 & Hin1 & -> & Hl1).
  pose proof (validate_segment_durations segs Hvalid) as Hdur.
  exists (sp - cum_start segs k0), (ep - cum_start segs k1).
  split; [exact Hl0|]. split; [exact Hl1|].
  simpl. rewrite Hs0, Hs1. simpl. split.
  - apply (blueprint_time_bounds s0); [apply Hdur; eapply nth_error_In; exact Hs0|lia].
  - apply (blueprint_time_bounds s1); [apply Hdur; eapply nth_error_In; exact Hs1|lia].
Qed.

Lemma blueprint_map_locate_witness :
  validate_segments two_segments = None /\
  blueprint_map two_segments 6 11
    = Some ((0, blueprint_time seg_A 6), (1, blueprint_time seg_B 0)) /\
  exists off0 off1,
    locate (build two_segments) (Z.of_nat 6) = inr (At 0 off0) /\
    locate (build two_segments) (Z.of_nat 11) = inr (At 1 off1) /\
    (blueprint_time seg_A 6 == snd (resolve two_segments (At 0 off0)))%Q /\
    (blueprint_time seg_B 0 == snd (resolve two_segments (At 1 off1)))%Q.
Proof.
  split; [reflexivity|]. split; [reflexivity|].
  apply (blueprint_map_locate two_segments 6 11); reflexivity.
Defined.

(** X12. On valid segments that do not overlap in time, an extraction with
    [start_pos <= end_pos] is mapped to a segment order [k_start <= k_end]
    and to times [t_start <= t_end]. *)
Theorem blueprint_map_order (segs : list Segment.TranscriptSegment) (sp ep k0 k1 : nat)
  (t0 t1 : Q)
  (Hvalid : validate_segments segs = None)
  (Hno : non_overlapping segs = true)
  (Hle : sp <= ep)
  (Hmap : blueprint_map segs sp ep = Some ((k0, t0), (k1, t1))) :
  k0 <= k1 /\ (t0 <= t1)%Q.
Proof.
  unfold blueprint_map in Hmap.
  destruct (blueprint_position segs sp) as [[k0' t0']|] eqn:E0; [|discriminate].
  destruct (blueprint_position segs ep) as [[k1' t1']|] eqn:E1; [|discriminate].
  injection Hmap as <- <- <- <-.
  destruct (blueprint_position_some _ _ _ _ E0) as (s0 & Hs0 & Hin0 & ->).
  destruct (blueprint_position_some _ _ _ _ E1) as (s1 & Hs1 & Hin1 & ->).
  pose proof (validate_segment_durations segs Hvalid) as Hdur.
  assert (Hv0 : (Segment.start_s s0 <= Segment.end_s s0)%Q)
    by (apply Hdur; eapply nth_error_In; exact Hs0).
  assert (Hv1 : (Segment.start_s s1 <= Segment.end_s s1)%Q)
    by (apply Hdur; eapply nth_error_In; exact Hs1).
  destruct (Nat.lt_trichotomy k1' k0') as [Hlt|[Heq|Hlt]].
  - exfalso. pose proof (cum_start_mono segs (S k1') k0' ltac:(lia)) as Hm.
    rewrite (cum_start_succ _ _ _ Hs1) in Hm. lia.
  - subst k1'. rewrite Hs0 in Hs1. injection Hs1 as <-. split; [lia|].
    rewrite (proj2 (blueprint_time_bounds s0 (sp - cum_start segs k0') Hv0 ltac:(lia))).
    rewrite (proj2 (blueprint_time_bounds s0 (ep - cum_start segs k0') Hv0 ltac:(lia))).
    apply interpolate_mono; [exact Hv0|lia].
  - split; [lia|].
    apply Qle_trans with (Segment.end_s s0);
      [apply (blueprint_time_bounds s0); [exact Hv0|lia]|].
    apply Qle_trans with (Segment.start_s s1);
      [exact (non_overlapping_order segs Hdur Hno k0' k1' s0 s1 Hlt Hs0 Hs1)|].
    apply (blueprint_time_bounds s1); [exact Hv1|lia].
Qed.

Lemma blueprint_map_order_witness :
  validate_segments two_segments = None /\ non_overlapping two_segments = true /\
  blueprint_map two_segments 6 11
    = Some ((0, blueprint_time seg_A 6), (1, blueprint_time seg_B 0)) /\
  0 <= 1 /\ (blueprint_time seg_A 6 <= blueprint_time seg_B 0)%Q.
Proof.
  split; [reflexivity|]. split; [reflexivity|]. split; [reflexivity|].
  apply (blueprint_map_order two_segments 6 11); [reflexivity|reflexivity|lia|reflexivity].
Defined.
